(** * hb-set-digest: approximate member query filters for glyph coverage

    A shallow embedding of [src/hb-set-digest.hh] and the properties of
    its bits-pattern filter, its combiner and the production digest.

    Unsigned machine integers are values of [Z] with the wrap-around of
    each operation written out.  Member functions of the C++ structs are
    computations of a small state monad over the struct they belong to.
    The C++ templates become a type class, [Digest.SetDigest], with one
    instance per template. *)

From Stdlib Require Import ZArith List Bool Lia Permutation.
Import ListNotations.
Local Open Scope Z_scope.

(** ** Machine integers *)

(** The value an unsigned integer of [bits] bits takes for [x]. *)
Definition wrap (bits x : Z) : Z := x mod 2 ^ bits.

(** Modelled from the spec: [hb_codepoint_t] is declared in hb-common.h,
    which is not part of the sources at hand; the data model of the
    specification gives it as an unsigned 32-bit integer, so that
    [sizeof (hb_codepoint_t) * 8] is 32. *)
Definition codepoint_bits : Z := 32.

Definition is_codepoint (g : Z) : Prop := 0 <= g < 2 ^ codepoint_bits.

(** ** Member functions as state computations *)

Definition method (S A : Type) : Type := S -> A * S.

Definition ret {S A} (a : A) : method S A := fun s => (a, s).

Definition bind {S A B} (m : method S A) (k : A -> method S B) : method S B :=
  fun s => let (a, s') := m s in k a s'.

Definition result {S A} (m : method S A) (s : S) : A := fst (m s).
Definition after {S A} (m : method S A) (s : S) : S := snd (m s).

Declare Scope method_scope.
Delimit Scope method_scope with method.
Notation "x <- m ;; k" := (bind m (fun x => k))
  (at level 61, m at next level, right associativity) : method_scope.
Notation "m ;; k" := (bind m (fun _ => k))
  (at level 61, right associativity) : method_scope.
Local Open Scope method_scope.

(** ** Memory read by [add_array]

    [add_array] walks a caller-owned buffer through a [const T *] that it
    advances by [stride] bytes.  A [memory] gives, for a byte address,
    the value that [*array] converts to when passed as a codepoint. *)
Definition memory : Type := Z -> Z.

(** ** 256-bit vectors of eight 32-bit lanes *)

Record m256i : Type := M256 {
  e0 : Z; e1 : Z; e2 : Z; e3 : Z; e4 : Z; e5 : Z; e6 : Z; e7 : Z
}.

Definition lanes (v : m256i) : list Z :=
  [e0 v; e1 v; e2 v; e3 v; e4 v; e5 v; e6 v; e7 v].

Definition map8 (f : Z -> Z) (v : m256i) : m256i :=
  M256 (f (e0 v)) (f (e1 v)) (f (e2 v)) (f (e3 v))
       (f (e4 v)) (f (e5 v)) (f (e6 v)) (f (e7 v)).

Definition zip8 (f : Z -> Z -> Z) (v w : m256i) : m256i :=
  M256 (f (e0 v) (e0 w)) (f (e1 v) (e1 w)) (f (e2 v) (e2 w)) (f (e3 v) (e3 w))
       (f (e4 v) (e4 w)) (f (e5 v) (e5 w)) (f (e6 v) (e6 w)) (f (e7 v) (e7 w)).

(** The AVX2 intrinsics of <x86intrin.h> used by the vector query, lane
    by lane as their instruction documentation gives them. *)
Module Avx2.

(** Broadcast of a 32-bit integer; the argument is converted to [int],
    which keeps its low 32 bits. *)
Definition _mm256_set1_epi32 (a : Z) : m256i :=
  let x := wrap 32 a in M256 x x x x x x x x.

Definition _mm256_and_si256 (a b : m256i) : m256i := zip8 Z.land a b.

(** Logical right shift of every lane; a count above 31 clears it. *)
Definition _mm256_srli_epi32 (a : m256i) (imm8 : Z) : m256i :=
  map8 (fun x => if 31 <? imm8 then 0 else Z.shiftr x imm8) a.

(** Left shift of every lane by the count in the same lane of [count];
    a count above 31 clears the lane. *)
Definition _mm256_sllv_epi32 (a count : m256i) : m256i :=
  zip8 (fun x c => if 31 <? c then 0 else wrap 32 (Z.shiftl x c)) a count.

(** 1 when the bitwise AND of the operands is zero, else 0. *)
Definition _mm256_testz_si256 (a b : m256i) : Z :=
  if forallb (fun x => x =? 0) (lanes (_mm256_and_si256 a b)) then 1 else 0.

End Avx2.

(** ** The interface shared by the digest templates

    [hb_set_digest_combiner_t] is a template over two types on which it
    calls these member functions; the two overloads of [may_have] are
    two methods. *)
Module Digest.

Class SetDigest (D : Type) : Type := {
  init : method D unit;
  add : Z -> method D unit;
  add_range : Z -> Z -> method D bool;
  add_array : memory -> Z -> nat -> Z -> method D unit;
  add_sorted_array : memory -> Z -> nat -> Z -> method D bool;
  may_have : Z -> method D bool;
  may_have_m256 : m256i -> method D bool
}.

End Digest.

(** ** hb_set_digest_bits_pattern_t *)

Record hb_set_digest_bits_pattern_t (mask_bytes shift : Z) : Type :=
  { mask : Z }.
Arguments Build_hb_set_digest_bits_pattern_t {mask_bytes shift} _.
Arguments mask {mask_bytes shift} _.

Module BitsPattern.
Section Template.

(** The template parameters: [mask_bytes] is [sizeof (mask_t)]. *)
Variable mask_bytes : Z.
Variable shift : Z.

Local Notation "'t'" := (hb_set_digest_bits_pattern_t mask_bytes shift).

Definition mask_bits : Z := mask_bytes * 8.

Definition num_bits : Z :=
  0 + (if 1 <=? mask_bytes then 3 else 0)
    + (if 2 <=? mask_bytes then 1 else 0)
    + (if 4 <=? mask_bytes then 1 else 0)
    + (if 8 <=? mask_bytes then 1 else 0)
    + (if 16 <=? mask_bytes then 1 else 0)
    + 0.

(** The two [static_assert]s of the struct. *)
Definition static_asserts : Prop :=
  shift < codepoint_bits /\ shift + num_bits <= codepoint_bits.

Definition get_mask : method t Z := fun d => (mask d, d).
Definition set_mask (m : Z) : method t unit :=
  fun _ => (tt, Build_hb_set_digest_bits_pattern_t m).

(** Arithmetic of [mask_t]. *)
Definition madd (x y : Z) : Z := wrap mask_bits (x + y).
Definition msub (x y : Z) : Z := wrap mask_bits (x - y).

Definition init : method t unit := set_mask 0.

Definition mask_for (g : Z) : Z :=
  wrap mask_bits (Z.shiftl 1 (Z.land (Z.shiftr g shift) (mask_bits - 1))).

Definition add (g : Z) : method t unit :=
  m <- get_mask ;; set_mask (Z.lor m (mask_for g)).

Definition add_range (a b : Z) : method t bool :=
  if mask_bits - 1 <=? wrap codepoint_bits (Z.shiftr b shift - Z.shiftr a shift)
  then set_mask (wrap mask_bits (-1)) ;; ret true
  else
    let ma := mask_for a in
    let mb := mask_for b in
    m <- get_mask ;;
    set_mask (Z.lor m (msub (madd mb (msub mb ma)) (Z.b2z (mb <? ma)))) ;;
    ret true.

Fixpoint add_array (mem : memory) (array : Z) (count : nat) (stride : Z)
  : method t unit :=
  match count with
  | O => ret tt
  | S count' =>
      add (mem array) ;;
      add_array mem (stride + array) count' stride
  end.

Fixpoint add_sorted_array (mem : memory) (array : Z) (count : nat) (stride : Z)
  : method t bool :=
  match count with
  | O => ret true
  | S count' =>
      add (mem array) ;;
      add_sorted_array mem (stride + array) count' stride
  end.

Definition may_have (g : Z) : method t bool :=
  m <- get_mask ;; ret (negb (Z.land m (mask_for g) =? 0)).

Definition m256_is_not_zero (v : m256i) : bool :=
  Avx2._mm256_testz_si256 v v =? 0.

Definition shifted (v : m256i) : m256i :=
  if shift =? 0 then v else Avx2._mm256_srli_epi32 v shift.

Definition mask_for_m256 (g : m256i) : m256i :=
  let a := Avx2._mm256_and_si256 (shifted g)
                                 (Avx2._mm256_set1_epi32 (mask_bits - 1)) in
  Avx2._mm256_sllv_epi32 (Avx2._mm256_set1_epi32 1) a.

Definition may_have_m256 (g : m256i) : method t bool :=
  m <- get_mask ;;
  ret (m256_is_not_zero
         (Avx2._mm256_and_si256 (Avx2._mm256_set1_epi32 m) (mask_for_m256 g))).

#[global] Instance digest : Digest.SetDigest t := {|
  Digest.init := init;
  Digest.add := add;
  Digest.add_range := add_range;
  Digest.add_array := add_array;
  Digest.add_sorted_array := add_sorted_array;
  Digest.may_have := may_have;
  Digest.may_have_m256 := may_have_m256
|}.

End Template.
End BitsPattern.

(** ** hb_set_digest_combiner_t *)

Record hb_set_digest_combiner_t (head_t tail_t : Type) : Type :=
  { head : head_t; tail : tail_t }.
Arguments Build_hb_set_digest_combiner_t {head_t tail_t} _ _.
Arguments head {head_t tail_t} _.
Arguments tail {head_t tail_t} _.

Module Combiner.
Section Template.

Context {head_t tail_t : Type}.
Context {head_digest : Digest.SetDigest head_t}.
Context {tail_digest : Digest.SetDigest tail_t}.

Local Notation "'t'" := (hb_set_digest_combiner_t head_t tail_t).

(** A call on the member [head], and one on the member [tail]. *)
Definition on_head {A} (m : method head_t A) : method t A :=
  fun d => let (a, h) := m (head d) in
           (a, Build_hb_set_digest_combiner_t h (tail d)).

Definition on_tail {A} (m : method tail_t A) : method t A :=
  fun d => let (a, tl) := m (tail d) in
           (a, Build_hb_set_digest_combiner_t (head d) tl).

Definition init : method t unit :=
  on_head Digest.init ;; on_tail Digest.init.

Definition add (g : Z) : method t unit :=
  on_head (Digest.add g) ;; on_tail (Digest.add g).

Definition add_range (a b : Z) : method t bool :=
  on_head (Digest.add_range a b) ;;
  on_tail (Digest.add_range a b) ;;
  ret true.

Definition add_array (mem : memory) (array : Z) (count : nat) (stride : Z)
  : method t unit :=
  on_head (Digest.add_array mem array count stride) ;;
  on_tail (Digest.add_array mem array count stride).

Definition add_sorted_array (mem : memory) (array : Z) (count : nat) (stride : Z)
  : method t bool :=
  on_head (Digest.add_sorted_array mem array count stride) ;;
  on_tail (Digest.add_sorted_array mem array count stride) ;;
  ret true.

(** [&&] evaluates its right operand only when the left one is true. *)
Definition may_have (g : Z) : method t bool :=
  b <- on_head (Digest.may_have g) ;;
  if b then on_tail (Digest.may_have g) else ret false.

Definition may_have_m256 (g : m256i) : method t bool :=
  b <- on_head (Digest.may_have_m256 g) ;;
  if b then on_tail (Digest.may_have_m256 g) else ret false.

#[global] Instance digest : Digest.SetDigest t := {|
  Digest.init := init;
  Digest.add := add;
  Digest.add_range := add_range;
  Digest.add_array := add_array;
  Digest.add_sorted_array := add_sorted_array;
  Digest.may_have := may_have;
  Digest.may_have_m256 := may_have_m256
|}.

End Template.
End Combiner.

(** ** hb_set_digest_t *)

(** [uint32_t] has four bytes. *)
Definition uint32_t : Z := 4.
Definition uint64_t : Z := 8.

Definition hb_set_digest_t : Type :=
  hb_set_digest_combiner_t
    (hb_set_digest_bits_pattern_t uint32_t 4)
    (hb_set_digest_combiner_t
       (hb_set_digest_bits_pattern_t uint32_t 0)
       (hb_set_digest_bits_pattern_t uint32_t 9)).

#[global] Instance hb_set_digest : Digest.SetDigest hb_set_digest_t :=
  Combiner.digest.

(** ** Every instantiation of the two templates

    A [digest_t] names a type built from the two templates; [state_of]
    is that type and [digest_of] its member functions. *)
Inductive digest_t : Type :=
| bits_pattern (mask_bytes shift : Z)
| combiner (head_t tail_t : digest_t).

Fixpoint state_of (t : digest_t) : Type :=
  match t with
  | bits_pattern mask_bytes shift => hb_set_digest_bits_pattern_t mask_bytes shift
  | combiner head_t tail_t =>
      hb_set_digest_combiner_t (state_of head_t) (state_of tail_t)
  end.

Fixpoint digest_of (t : digest_t) : Digest.SetDigest (state_of t) :=
  match t with
  | bits_pattern mask_bytes shift => BitsPattern.digest mask_bytes shift
  | combiner head_t tail_t =>
      @Combiner.digest _ _ (digest_of head_t) (digest_of tail_t)
  end.
#[global] Existing Instance digest_of.

Definition production : digest_t :=
  combiner (bits_pattern uint32_t 4)
           (combiner (bits_pattern uint32_t 0) (bits_pattern uint32_t 9)).

(** The sizes of the unsigned integer types a mask can have. *)
Definition mask_type (mask_bytes : Z) : Prop :=
  In mask_bytes [1; 2; 4; 8; 16].

(** A type that compiles: every mask is an unsigned integer type, every
    shift is an [unsigned] and the [static_assert]s hold. *)
Fixpoint valid (t : digest_t) : Prop :=
  match t with
  | bits_pattern mask_bytes shift =>
      mask_type mask_bytes /\ 0 <= shift /\
      BitsPattern.static_asserts mask_bytes shift
  | combiner head_t tail_t => valid head_t /\ valid tail_t
  end.

(** A state whose masks are values of their type. *)
Fixpoint representable (t : digest_t) : state_of t -> Prop :=
  match t with
  | bits_pattern mask_bytes shift =>
      fun d => 0 <= mask d < 2 ^ BitsPattern.mask_bits mask_bytes
  | combiner head_t tail_t =>
      fun d => representable head_t (head d) /\ representable tail_t (tail d)
  end.

(** ** Sequences of calls *)

Inductive add_call : Type :=
| Add (g : Z)
| AddRange (a b : Z)
| AddArray (mem : memory) (array : Z) (count : nat) (stride : Z)
| AddSortedArray (mem : memory) (array : Z) (count : nat) (stride : Z).

Inductive call : Type :=
| Init
| Mutate (c : add_call).

Definition do_add {D} `{Digest.SetDigest D} (c : add_call) : method D unit :=
  match c with
  | Add g => Digest.add g
  | AddRange a b => Digest.add_range a b ;; ret tt
  | AddArray mem array count stride => Digest.add_array mem array count stride
  | AddSortedArray mem array count stride =>
      Digest.add_sorted_array mem array count stride ;; ret tt
  end.

Definition do_call {D} `{Digest.SetDigest D} (c : call) : method D unit :=
  match c with
  | Init => Digest.init
  | Mutate c => do_add c
  end.

Fixpoint do_all {D C} (step : C -> method D unit) (cs : list C) : method D unit :=
  match cs with
  | [] => ret tt
  | c :: cs' => step c ;; do_all step cs'
  end.

(** The codepoints a call puts in the set: the argument of [add], the
    closed interval of [add_range], the elements an array call reads. *)
Definition array_elements (mem : memory) (array : Z) (count : nat) (stride : Z)
  : list Z :=
  map (fun i => mem (array + Z.of_nat i * stride)) (seq 0 count).

Definition adds (c : add_call) (g : Z) : Prop :=
  match c with
  | Add g' => g = g'
  | AddRange a b => a <= g <= b
  | AddArray mem array count stride
  | AddSortedArray mem array count stride =>
      In g (array_elements mem array count stride)
  end.

(** The arguments of a call are codepoints, and a range is not inverted. *)
Definition well_formed (c : add_call) : Prop :=
  match c with
  | Add g => is_codepoint g
  | AddRange a b => is_codepoint a /\ is_codepoint b /\ a <= b
  | AddArray mem array count stride
  | AddSortedArray mem array count stride =>
      Forall is_codepoint (array_elements mem array count stride)
  end.

(** ** Names for what the code computes in place

    The bucket of a codepoint is the shift count of [mask_for]; the
    condition of [add_range] decides between its two branches. *)
Definition bucket (mask_bytes shift g : Z) : Z :=
  Z.land (Z.shiftr g shift) (BitsPattern.mask_bits mask_bytes - 1).

Definition saturates (mask_bytes shift a b : Z) : bool :=
  BitsPattern.mask_bits mask_bytes - 1
  <=? wrap codepoint_bits (Z.shiftr b shift - Z.shiftr a shift).

Definition all_ones (mask_bytes : Z) : Z :=
  wrap (BitsPattern.mask_bits mask_bytes) (-1).

(** The codepoints of the closed interval from [a] to [b], and [add]
    called on each of them in turn. *)
Definition interval (a b : Z) : list Z :=
  map (fun i => a + Z.of_nat i) (seq 0 (Z.to_nat (b - a + 1))).

Definition add_each {D} `{Digest.SetDigest D} (a b : Z) : method D unit :=
  do_all Digest.add (interval a b).

(** Every bit set in a mask of [d] is set in the same mask of [d']. *)
Fixpoint mask_subset (t : digest_t) : state_of t -> state_of t -> Prop :=
  match t with
  | bits_pattern mask_bytes shift =>
      fun d d' => forall k, Z.testbit (mask d) k = true ->
                            Z.testbit (mask d') k = true
  | combiner head_t tail_t =>
      fun d d' => mask_subset head_t (head d) (head d') /\
                  mask_subset tail_t (tail d) (tail d')
  end.

(** ** The condition of saturation in the words of the specification

    The specification defines [bucket(c) = (c >> shift) & (num_buckets-1)]
    with [num_buckets = 2^num_bits(W)], and saturates when
    [bucket(b) - bucket(a) >= num_buckets - 1]. *)
Definition num_buckets (mask_bytes : Z) : Z :=
  2 ^ BitsPattern.num_bits mask_bytes.

Definition spec_bucket (mask_bytes shift c : Z) : Z :=
  Z.land (Z.shiftr c shift) (num_buckets mask_bytes - 1).

Definition spec_saturates (mask_bytes shift a b : Z) : bool :=
  num_buckets mask_bytes - 1
  <=? spec_bucket mask_bytes shift b - spec_bucket mask_bytes shift a.

(** ** Digest types whose masks fit a lane of the vector query *)
Fixpoint narrow (t : digest_t) : Prop :=
  match t with
  | bits_pattern mask_bytes _ => mask_bytes <= 4
  | combiner head_t tail_t => narrow head_t /\ narrow tail_t
  end.

(** In every filter of the digest some codepoint of [added] has the
    bucket of [g]. *)
Fixpoint hits (t : digest_t) (added : Z -> Prop) (g : Z) : Prop :=
  match t with
  | bits_pattern mask_bytes shift =>
      exists c, added c /\ bucket mask_bytes shift c = bucket mask_bytes shift g
  | combiner head_t tail_t => hits head_t added g /\ hits tail_t added g
  end.

(** ** hb-ot-layout.h: tags

    [HB_TAG] packs four characters, each cast to [uint8_t], into an
    [hb_tag_t], which is a [uint32_t].  The shifts are done in [int];
    one that reaches the sign bit leaves the same 32 bits, which the
    cast to [hb_tag_t] then reads as unsigned.  [HB_TAG_STR] takes the
    characters from a [const char *], given here by the character at
    each index. *)
Definition HB_TAG (a b c d : Z) : Z :=
  wrap 32 (Z.lor (Z.lor (Z.lor (Z.shiftl (wrap 8 a) 24)
                               (Z.shiftl (wrap 8 b) 16))
                        (Z.shiftl (wrap 8 c) 8))
                 (wrap 8 d)).

Definition HB_TAG_STR (s : Z -> Z) : Z := HB_TAG (s 0) (s 1) (s 2) (s 3).

(** ** Scenarios of the specification, run on the code *)

Definition empty32 : hb_set_digest_bits_pattern_t uint32_t 0 :=
  Build_hb_set_digest_bits_pattern_t 0.

Example scenario_A :
  let d := after (Digest.add 5 ;; Digest.add 37) empty32 in
  result (Digest.may_have 5) d = true /\
  result (Digest.may_have 37) d = true /\
  result (Digest.may_have 4) d = false.
Proof. vm_compute. auto. Qed.

Example scenario_B :
  let d := after (Digest.add_range 10 14) empty32 in
  result (Digest.may_have 12) d = true /\
  result (Digest.may_have 9) d = false /\
  result (Digest.may_have 15) d = false.
Proof. vm_compute. auto. Qed.

Example add_range_wraps_buckets :
  mask (after (Digest.add_range 30 33) empty32) = 0xC0000003.
Proof. reflexivity. Qed.

(** * Bits of the integers the filter computes *)

Lemma pow2_diff_testbit (i m k : Z) :
  0 <= i <= m -> 0 <= k ->
  Z.testbit (2 ^ m - 2 ^ i) k = (i <=? k) && (k <? m).
Proof.
  intros Him Hk.
  replace (2 ^ m - 2 ^ i) with (Z.shiftl (Z.ones (m - i)) i).
  - rewrite Z.shiftl_spec by assumption.
    rewrite Z.testbit_ones by lia.
    destruct (Z.leb_spec i k), (Z.ltb_spec k m),
      (Z.leb_spec 0 (k - i)), (Z.ltb_spec (k - i) (m - i));
      simpl; try reflexivity; lia.
  - rewrite Z.shiftl_mul_pow2, Z.ones_equiv by lia.
    replace (2 ^ m) with (2 ^ (m - i) * 2 ^ i).
    + unfold Z.pred. ring.
    + rewrite <- Z.pow_add_r by lia. f_equal. lia.
Qed.

Lemma land_pow2_eqb (m k : Z) :
  0 <= k -> (Z.land m (2 ^ k) =? 0) = negb (Z.testbit m k).
Proof.
  intros Hk.
  assert (E : Z.land m (2 ^ k) = if Z.testbit m k then 2 ^ k else 0).
  { apply Z.bits_inj'. intros n Hn.
    rewrite Z.land_spec, Z.pow2_bits_eqb by assumption.
    destruct (Z.eqb_spec k n) as [->|Hne].
    - destruct (Z.testbit m n) eqn:B.
      + rewrite Z.pow2_bits_eqb, Z.eqb_refl by assumption. reflexivity.
      + rewrite Z.bits_0. reflexivity.
    - rewrite andb_false_r.
      destruct (Z.testbit m k).
      + rewrite Z.pow2_bits_eqb by assumption.
        symmetry. apply Z.eqb_neq. assumption.
      + rewrite Z.bits_0. reflexivity. }
  rewrite E. destruct (Z.testbit m k); simpl.
  - apply Z.eqb_neq. pose proof (Z.pow_pos_nonneg 2 k). lia.
  - reflexivity.
Qed.

(** The run of set bits that [add_range] computes from the masks of two
    buckets [i] and [j], in an unsigned type of [W] bits: the buckets
    from [i] up to [j], through the top of the mask when [j < i]. *)
Lemma run_testbit (W i j k : Z) :
  0 <= i < W -> 0 <= j < W -> 0 <= k ->
  Z.testbit
    (wrap W (wrap W (2 ^ j + wrap W (2 ^ j - 2 ^ i)) - Z.b2z (2 ^ j <? 2 ^ i))) k
  = (k <? W) &&
    (if i <=? j then (i <=? k) && (k <=? j) else (k <=? j) || (i <=? k)).
Proof.
  intros Hi Hj Hk. unfold wrap.
  rewrite Zplus_mod_idemp_r, Zminus_mod_idemp_l.
  destruct (Z.ltb_spec k W) as [Hlt|Hge]; simpl.
  2: { apply Z.mod_pow2_bits_high. lia. }
  rewrite Z.mod_pow2_bits_low by assumption.
  assert (Hdouble : 2 ^ j + 2 ^ j = 2 ^ (j + 1))
    by (rewrite Z.pow_add_r by lia; change (2 ^ 1) with 2; ring).
  destruct (Z.leb_spec i j) as [Hij|Hji].
  - assert (Hle : 2 ^ i <= 2 ^ j) by (apply Z.pow_le_mono_r; lia).
    destruct (Z.ltb_spec (2 ^ j) (2 ^ i)); [lia|]. simpl.
    replace (2 ^ j + (2 ^ j - 2 ^ i) - 0) with (2 ^ (j + 1) - 2 ^ i) by lia.
    rewrite pow2_diff_testbit by lia.
    destruct (Z.leb_spec i k), (Z.ltb_spec k (j + 1)), (Z.leb_spec k j);
      simpl; try reflexivity; lia.
  - assert (Hlt' : 2 ^ j < 2 ^ i) by (apply Z.pow_lt_mono_r; lia).
    destruct (Z.ltb_spec (2 ^ j) (2 ^ i)); [|lia]. simpl.
    replace (2 ^ j + (2 ^ j - 2 ^ i) - 1)
      with (Z.lnot (2 ^ i - 2 ^ (j + 1))) by (unfold Z.lnot, Z.pred; lia).
    rewrite Z.lnot_spec, pow2_diff_testbit by lia.
    destruct (Z.leb_spec (j + 1) k), (Z.ltb_spec k i),
      (Z.leb_spec k j), (Z.leb_spec i k); simpl; try reflexivity; lia.
Qed.

(** All-ones: the value of [(mask_t) -1]. *)
Lemma all_ones_testbit (W k : Z) :
  0 <= W -> 0 <= k -> Z.testbit (wrap W (-1)) k = (k <? W).
Proof.
  intros HW Hk. unfold wrap.
  destruct (Z.ltb_spec k W).
  - rewrite Z.mod_pow2_bits_low by assumption.
    change (-1) with (Z.lnot 0). rewrite Z.lnot_spec, Z.bits_0 by assumption.
    reflexivity.
  - apply Z.mod_pow2_bits_high. lia.
Qed.

Lemma all_ones_value (W : Z) : 0 <= W -> wrap W (-1) = 2 ^ W - 1.
Proof.
  intros HW. unfold wrap.
  pose proof (Z.pow_pos_nonneg 2 W ltac:(lia) HW).
  replace (-1) with (2 ^ W - 1 + (-1) * 2 ^ W) by lia.
  rewrite Z.mod_add by lia. apply Z.mod_small. lia.
Qed.

Lemma high_bits_clear (W m k : Z) :
  0 <= W -> 0 <= m < 2 ^ W -> W <= k -> Z.testbit m k = false.
Proof.
  intros HW [Hlo Hhi] Hk.
  destruct (Z.eq_dec m 0) as [->|Hm]; [apply Z.bits_0|].
  apply Z.bits_above_log2; [assumption|].
  apply Z.lt_le_trans with W; [|assumption].
  apply Z.log2_lt_pow2; lia.
Qed.

Lemma below_pow2 (W m : Z) :
  0 <= W -> (forall k, W <= k -> Z.testbit m k = false) -> 0 <= m ->
  m < 2 ^ W.
Proof.
  intros HW Hhigh Hm.
  destruct (Z.lt_ge_cases m (2 ^ W)) as [|Hge]; [assumption|exfalso].
  assert (Hpos : 0 < m) by (pose proof (Z.pow_pos_nonneg 2 W); lia).
  pose proof (Z.bit_log2 m Hpos) as Hbit.
  rewrite Hhigh in Hbit; [discriminate|].
  apply Z.log2_le_pow2; assumption.
Qed.

(** * The bits-pattern filter *)

Lemma mask_bits_pow2 (mb : Z) :
  mask_type mb ->
  BitsPattern.mask_bits mb = 2 ^ BitsPattern.num_bits mb /\
  3 <= BitsPattern.num_bits mb <= 7.
Proof.
  unfold mask_type. simpl.
  intros [<-|[<-|[<-|[<-|[<-|[]]]]]]; vm_compute; intuition discriminate.
Qed.

Lemma mask_bits_range (mb : Z) :
  mask_type mb -> 8 <= BitsPattern.mask_bits mb <= 128.
Proof.
  unfold mask_type. simpl.
  intros [<-|[<-|[<-|[<-|[<-|[]]]]]]; vm_compute; intuition discriminate.
Qed.

Lemma bucket_mod (mb s g : Z) :
  mask_type mb ->
  bucket mb s g = Z.shiftr g s mod BitsPattern.mask_bits mb.
Proof.
  intros Hmb. unfold bucket.
  destruct (mask_bits_pow2 mb Hmb) as [-> Hn].
  replace (2 ^ BitsPattern.num_bits mb - 1)
    with (Z.ones (BitsPattern.num_bits mb))
    by (rewrite Z.ones_equiv; reflexivity).
  apply Z.land_ones. lia.
Qed.

Lemma bucket_range (mb s g : Z) :
  mask_type mb -> 0 <= bucket mb s g < BitsPattern.mask_bits mb.
Proof.
  intros Hmb. rewrite bucket_mod by assumption.
  apply Z.mod_pos_bound. pose proof (mask_bits_range mb Hmb). lia.
Qed.

Lemma mask_for_pow2 (mb s g : Z) :
  mask_type mb -> BitsPattern.mask_for mb s g = 2 ^ bucket mb s g.
Proof.
  intros Hmb. unfold BitsPattern.mask_for, wrap. fold (bucket mb s g).
  pose proof (bucket_range mb s g Hmb) as Hb.
  rewrite Z.shiftl_mul_pow2, Z.mul_1_l by lia.
  apply Z.mod_small. split.
  - apply Z.pow_nonneg. lia.
  - apply Z.pow_lt_mono_r; lia.
Qed.

Lemma mask_for_testbit (mb s g k : Z) :
  mask_type mb ->
  Z.testbit (BitsPattern.mask_for mb s g) k = (bucket mb s g =? k).
Proof.
  intros Hmb. rewrite mask_for_pow2 by assumption.
  apply Z.pow2_bits_eqb. apply bucket_range. assumption.
Qed.

(** [may_have] reads the bit of the bucket. *)
Lemma may_have_testbit (mb s g : Z) (d : hb_set_digest_bits_pattern_t mb s) :
  mask_type mb ->
  result (BitsPattern.may_have mb s g) d = Z.testbit (mask d) (bucket mb s g).
Proof.
  intros Hmb. unfold result, BitsPattern.may_have, bind. simpl.
  rewrite mask_for_pow2, land_pow2_eqb by (assumption || apply bucket_range; assumption).
  apply negb_involutive.
Qed.

Lemma add_mask (mb s g : Z) (d : hb_set_digest_bits_pattern_t mb s) :
  mask (after (BitsPattern.add mb s g) d)
  = Z.lor (mask d) (BitsPattern.mask_for mb s g).
Proof. reflexivity. Qed.

(** The two branches of [add_range]. *)
Lemma add_range_saturated (mb s a b : Z) (d : hb_set_digest_bits_pattern_t mb s) :
  saturates mb s a b = true ->
  mask (after (BitsPattern.add_range mb s a b) d)
  = wrap (BitsPattern.mask_bits mb) (-1).
Proof.
  unfold saturates, after, BitsPattern.add_range. intros ->. reflexivity.
Qed.

Lemma add_range_run (mb s a b : Z) (d : hb_set_digest_bits_pattern_t mb s) :
  saturates mb s a b = false ->
  mask (after (BitsPattern.add_range mb s a b) d)
  = Z.lor (mask d)
      (BitsPattern.msub mb
         (BitsPattern.madd mb (BitsPattern.mask_for mb s b)
            (BitsPattern.msub mb (BitsPattern.mask_for mb s b)
                                 (BitsPattern.mask_for mb s a)))
         (Z.b2z (BitsPattern.mask_for mb s b <? BitsPattern.mask_for mb s a))).
Proof.
  unfold saturates, after, BitsPattern.add_range. intros ->. reflexivity.
Qed.

Lemma add_range_returns (mb s a b : Z) (d : hb_set_digest_bits_pattern_t mb s) :
  result (BitsPattern.add_range mb s a b) d = true.
Proof.
  unfold result, BitsPattern.add_range.
  destruct (_ <=? _); reflexivity.
Qed.

(** The bits of the mask after [add_range], branch by branch. *)
Lemma add_range_testbit (mb s a b k : Z) (d : hb_set_digest_bits_pattern_t mb s) :
  mask_type mb -> 0 <= k ->
  Z.testbit (mask (after (BitsPattern.add_range mb s a b) d)) k
  = if saturates mb s a b then k <? BitsPattern.mask_bits mb
    else Z.testbit (mask d) k ||
         (k <? BitsPattern.mask_bits mb) &&
         (if bucket mb s a <=? bucket mb s b
          then (bucket mb s a <=? k) && (k <=? bucket mb s b)
          else (k <=? bucket mb s b) || (bucket mb s a <=? k)).
Proof.
  intros Hmb Hk. pose proof (mask_bits_range mb Hmb) as HW.
  destruct (saturates mb s a b) eqn:Hsat.
  - rewrite add_range_saturated by assumption.
    apply all_ones_testbit; lia.
  - rewrite add_range_run by assumption.
    rewrite Z.lor_spec. f_equal.
    unfold BitsPattern.msub, BitsPattern.madd.
    rewrite !mask_for_pow2 by assumption.
    apply run_testbit; try assumption; apply bucket_range; assumption.
Qed.

(** A [mask_t] narrower than [int] is promoted: the run is then computed
    without wrap-around and the sum converted back when it is stored in
    [mask].  The stored value is the one the arithmetic of [mask_t]
    gives. *)
Lemma add_range_promoted (mb m ma mk : Z) :
  0 <= BitsPattern.mask_bits mb ->
  0 <= m < 2 ^ BitsPattern.mask_bits mb ->
  wrap (BitsPattern.mask_bits mb)
       (Z.lor m (mk + (mk - ma) - Z.b2z (mk <? ma)))
  = Z.lor m (BitsPattern.msub mb
               (BitsPattern.madd mb mk (BitsPattern.msub mb mk ma))
               (Z.b2z (mk <? ma))).
Proof.
  intros HW Hm. unfold BitsPattern.msub, BitsPattern.madd, wrap.
  rewrite Zplus_mod_idemp_r, Zminus_mod_idemp_l.
  rewrite <- !Z.land_ones by assumption.
  rewrite Z.land_lor_distr_l. f_equal.
  rewrite Z.land_ones by assumption. apply Z.mod_small. assumption.
Qed.

(** ** Buckets of an interval of codepoints *)

Ltac euclid := Z.to_euclidean_division_equations; lia.

Lemma mask_bits_cases (mb : Z) :
  mask_type mb ->
  let W := BitsPattern.mask_bits mb in
  W = 8 \/ W = 16 \/ W = 32 \/ W = 64 \/ W = 128.
Proof.
  unfold mask_type. simpl.
  intros [<-|[<-|[<-|[<-|[<-|[]]]]]]; vm_compute; tauto.
Qed.

(** An interval of at least [W] consecutive integers meets every residue. *)
Lemma wide_interval_residues (W lo hi k : Z) :
  W = 8 \/ W = 16 \/ W = 32 \/ W = 64 \/ W = 128 ->
  W - 1 <= hi - lo -> 0 <= k < W ->
  exists x, lo <= x <= hi /\ x mod W = k.
Proof.
  intros HW Hwide Hk.
  exists (lo + (k - lo) mod W).
  destruct HW as [->|[->|[->|[->| ->]]]]; euclid.
Qed.

(** A shorter one meets the residues from that of [lo] up to that of
    [hi], wrapping around when the latter is the smaller. *)
Lemma narrow_interval_residues (W lo hi k : Z) :
  W = 8 \/ W = 16 \/ W = 32 \/ W = 64 \/ W = 128 ->
  lo <= hi -> hi - lo < W - 1 -> 0 <= k < W ->
  (if lo mod W <=? hi mod W
   then (lo mod W <=? k) && (k <=? hi mod W)
   else (k <=? hi mod W) || (lo mod W <=? k)) = true
  <-> exists x, lo <= x <= hi /\ x mod W = k.
Proof.
  intros HW Hle Hnarrow Hk. split.
  - intros Hrun.
    destruct (Z.leb_spec (lo mod W) (hi mod W)) as [Hij|Hji].
    + apply andb_true_iff in Hrun as [H1 H2].
      apply Z.leb_le in H1, H2.
      exists (lo + (k - lo mod W)).
      destruct HW as [->|[->|[->|[->| ->]]]]; euclid.
    + apply orb_true_iff in Hrun as [H1|H1]; apply Z.leb_le in H1.
      * exists (hi - (hi mod W - k)).
        destruct HW as [->|[->|[->|[->| ->]]]]; euclid.
      * exists (lo + (k - lo mod W)).
        destruct HW as [->|[->|[->|[->| ->]]]]; euclid.
  - intros (x & Hx & Hmod).
    destruct (Z.leb_spec (lo mod W) (hi mod W)) as [Hij|Hji].
    + apply andb_true_iff. rewrite !Z.leb_le.
      destruct HW as [->|[->|[->|[->| ->]]]]; euclid.
    + apply orb_true_iff. rewrite !Z.leb_le.
      destruct HW as [->|[->|[->|[->| ->]]]]; euclid.
Qed.

(** Shifting right maps an interval of codepoints onto the interval of
    the shifted ends. *)
Lemma shiftr_interval (s a b x : Z) :
  0 <= s -> a <= b ->
  Z.shiftr a s <= x <= Z.shiftr b s <->
  exists c, a <= c <= b /\ Z.shiftr c s = x.
Proof.
  intros Hs Hab. rewrite !Z.shiftr_div_pow2 by assumption.
  assert (Hp : 0 < 2 ^ s) by (apply Z.pow_pos_nonneg; lia).
  split.
  - intros [Hlo Hhi].
    destruct (Z.eq_dec x (a / 2 ^ s)) as [->|Hne].
    + exists a. rewrite Z.shiftr_div_pow2 by assumption. lia.
    + exists (x * 2 ^ s).
      rewrite Z.shiftr_div_pow2, Z.div_mul by lia.
      pose proof (Z.mul_div_le b (2 ^ s) Hp).
      pose proof (Z.mod_pos_bound a (2 ^ s) Hp).
      pose proof (Z.div_mod a (2 ^ s) ltac:(lia)).
      nia.
  - intros (c & [Hac Hcb] & <-).
    rewrite Z.shiftr_div_pow2 by assumption.
    split; apply Z.div_le_mono; assumption.
Qed.

Lemma shiftr_codepoint (s g : Z) :
  0 <= s -> is_codepoint g -> 0 <= Z.shiftr g s < 2 ^ codepoint_bits.
Proof.
  intros Hs [Hlo Hhi]. rewrite Z.shiftr_div_pow2 by assumption.
  assert (Hp : 0 < 2 ^ s) by (apply Z.pow_pos_nonneg; lia).
  split.
  - apply Z.div_pos; assumption.
  - apply Z.le_lt_trans with g; [|assumption].
    apply Z.div_le_upper_bound; [assumption|]. nia.
Qed.

(** For a range that is not inverted the 32-bit difference of the
    shifted ends is their difference. *)
Lemma saturates_ordered (mb s a b : Z) :
  0 <= s -> is_codepoint a -> is_codepoint b -> a <= b ->
  saturates mb s a b
  = (BitsPattern.mask_bits mb - 1 <=? Z.shiftr b s - Z.shiftr a s).
Proof.
  intros Hs Ha Hb Hab. unfold saturates, wrap.
  pose proof (shiftr_codepoint s a Hs Ha).
  pose proof (shiftr_codepoint s b Hs Hb).
  assert (Z.shiftr a s <= Z.shiftr b s).
  { rewrite !Z.shiftr_div_pow2 by assumption.
    apply Z.div_le_mono; [apply Z.pow_pos_nonneg; lia | assumption]. }
  rewrite Z.mod_small by lia. reflexivity.
Qed.

(** What [add_range] adds to the mask: exactly the buckets of the
    codepoints of the range. *)
Lemma add_range_buckets (mb s a b k : Z) (d : hb_set_digest_bits_pattern_t mb s) :
  mask_type mb -> 0 <= s ->
  0 <= mask d < 2 ^ BitsPattern.mask_bits mb ->
  is_codepoint a -> is_codepoint b -> a <= b -> 0 <= k ->
  Z.testbit (mask (after (BitsPattern.add_range mb s a b) d)) k = true
  <-> Z.testbit (mask d) k = true \/
      exists c, a <= c <= b /\ bucket mb s c = k.
Proof.
  intros Hmb Hs Hd Ha Hb Hab Hk.
  pose proof (mask_bits_cases mb Hmb) as HW. simpl in HW.
  pose proof (mask_bits_range mb Hmb) as HWr.
  assert (Hres : (exists c, a <= c <= b /\ bucket mb s c = k) <->
                 exists x, Z.shiftr a s <= x <= Z.shiftr b s /\
                           x mod BitsPattern.mask_bits mb = k).
  { split.
    - intros (c & Hc & Hbk). exists (Z.shiftr c s). split.
      + apply shiftr_interval; [assumption|assumption|]. exists c. auto.
      + rewrite <- bucket_mod by assumption. assumption.
    - intros (x & Hx & Hmod).
      apply shiftr_interval in Hx as (c & Hc & <-); [|assumption|assumption].
      exists c. split; [assumption|]. rewrite bucket_mod; assumption. }
  rewrite Hres. clear Hres.
  rewrite add_range_testbit by assumption.
  rewrite saturates_ordered by assumption.
  assert (Hsa : Z.shiftr a s <= Z.shiftr b s).
  { apply (shiftr_interval s a b (Z.shiftr a s) Hs Hab). exists a. lia. }
  destruct (Z.ltb_spec k (BitsPattern.mask_bits mb)) as [Hlt|Hge].
  - destruct (Z.leb_spec (BitsPattern.mask_bits mb - 1)
                         (Z.shiftr b s - Z.shiftr a s)) as [Hwide|Hnarrow].
    + split; [intros _|reflexivity]. right.
      apply wide_interval_residues; [assumption|assumption|lia].
    + rewrite orb_true_iff, andb_true_l, !bucket_mod by assumption.
      rewrite narrow_interval_residues by (assumption || lia).
      reflexivity.
  - assert (Hhigh : Z.testbit (mask d) k = false)
      by (apply high_bits_clear with (BitsPattern.mask_bits mb); lia).
    rewrite Hhigh, andb_false_l.
    destruct (_ <=? _); simpl.
    + split; [discriminate|].
      intros [Habs|(x & _ & Hmod)]; [discriminate|].
      pose proof (Z.mod_pos_bound x (BitsPattern.mask_bits mb)). lia.
    + split; [discriminate|].
      intros [Habs|(x & _ & Hmod)]; [discriminate|].
      pose proof (Z.mod_pos_bound x (BitsPattern.mask_bits mb)). lia.
Qed.

(** * Running member functions *)

Lemma after_bind {S A B} (m : method S A) (k : A -> method S B) (s : S) :
  after (bind m k) s = after (k (result m s)) (after m s).
Proof. unfold after, result, bind. destruct (m s). reflexivity. Qed.

Lemma result_bind {S A B} (m : method S A) (k : A -> method S B) (s : S) :
  result (bind m k) s = result (k (result m s)) (after m s).
Proof. unfold after, result, bind. destruct (m s). reflexivity. Qed.

Lemma after_ret {S A} (a : A) (s : S) : after (ret a) s = s.
Proof. reflexivity. Qed.

Section CombinerRuns.

Context {head_t tail_t : Type}.
Context {head_digest : Digest.SetDigest head_t}.
Context {tail_digest : Digest.SetDigest tail_t}.

Lemma after_on_head {A} (m : method head_t A)
    (d : hb_set_digest_combiner_t head_t tail_t) :
  after (Combiner.on_head m) d
  = Build_hb_set_digest_combiner_t (after m (head d)) (tail d).
Proof. unfold after, Combiner.on_head. destruct (m (head d)). reflexivity. Qed.

Lemma after_on_tail {A} (m : method tail_t A)
    (d : hb_set_digest_combiner_t head_t tail_t) :
  after (Combiner.on_tail m) d
  = Build_hb_set_digest_combiner_t (head d) (after m (tail d)).
Proof. unfold after, Combiner.on_tail. destruct (m (tail d)). reflexivity. Qed.

Lemma result_on_head {A} (m : method head_t A)
    (d : hb_set_digest_combiner_t head_t tail_t) :
  result (Combiner.on_head m) d = result m (head d).
Proof. unfold result, Combiner.on_head. destruct (m (head d)). reflexivity. Qed.

Lemma result_on_tail {A} (m : method tail_t A)
    (d : hb_set_digest_combiner_t head_t tail_t) :
  result (Combiner.on_tail m) d = result m (tail d).
Proof. unfold result, Combiner.on_tail. destruct (m (tail d)). reflexivity. Qed.

(** Every mutating call of the combiner leaves in each member what the
    same call leaves in that member alone. *)
Lemma combiner_after_call (c : call) (d : hb_set_digest_combiner_t head_t tail_t) :
  after (do_call c) d
  = Build_hb_set_digest_combiner_t (after (do_call c) (head d))
                                   (after (do_call c) (tail d)).
Proof.
  destruct c as [|[g|a b|mem array count stride|mem array count stride]];
    cbn [do_call do_add Digest.init Digest.add Digest.add_range
         Digest.add_array Digest.add_sorted_array Combiner.digest];
    unfold Combiner.init, Combiner.add, Combiner.add_range,
      Combiner.add_array, Combiner.add_sorted_array;
    repeat (rewrite ?after_bind, ?after_on_head, ?after_on_tail, ?after_ret;
            cbn [head tail]);
    reflexivity.
Qed.

Lemma combiner_after_calls (cs : list call)
    (d : hb_set_digest_combiner_t head_t tail_t) :
  after (do_all do_call cs) d
  = Build_hb_set_digest_combiner_t (after (do_all do_call cs) (head d))
                                   (after (do_all do_call cs) (tail d)).
Proof.
  revert d. induction cs as [|c cs IH]; intros d; simpl.
  - destruct d. reflexivity.
  - rewrite !after_bind, IH, combiner_after_call. reflexivity.
Qed.

Lemma combiner_after_add (c : add_call)
    (d : hb_set_digest_combiner_t head_t tail_t) :
  after (do_add c) d
  = Build_hb_set_digest_combiner_t (after (do_add c) (head d))
                                   (after (do_add c) (tail d)).
Proof. apply (combiner_after_call (Mutate c)). Qed.

(** [may_have] of the combiner answers with the conjunction of the
    answers of its members, and leaves the state it finds when the
    members do. *)
Lemma combiner_may_have (g : Z) (d : hb_set_digest_combiner_t head_t tail_t) :
  after (Digest.may_have g) (head d) = head d ->
  result (Digest.may_have g) d
  = result (Digest.may_have g) (head d) && result (Digest.may_have g) (tail d).
Proof.
  intros Hpure.
  cbn [Digest.may_have Combiner.digest]. unfold Combiner.may_have.
  rewrite result_bind, result_on_head, after_on_head, Hpure.
  destruct (result (Digest.may_have g) (head d)); simpl.
  - rewrite result_on_tail. destruct d. reflexivity.
  - reflexivity.
Qed.

Lemma combiner_may_have_after (g : Z) (d : hb_set_digest_combiner_t head_t tail_t) :
  after (Digest.may_have g) (head d) = head d ->
  after (Digest.may_have g) (tail d) = tail d ->
  after (Digest.may_have g) d = d.
Proof.
  intros Hh Ht.
  cbn [Digest.may_have Combiner.digest]. unfold Combiner.may_have.
  rewrite after_bind, result_on_head, after_on_head, Hh.
  destruct (result (Digest.may_have g) (head d)).
  - rewrite after_on_tail. cbn [head tail]. rewrite Ht. destruct d. reflexivity.
  - rewrite after_ret. destruct d. reflexivity.
Qed.

Lemma combiner_may_have_m256_after (g : m256i)
    (d : hb_set_digest_combiner_t head_t tail_t) :
  after (Digest.may_have_m256 g) (head d) = head d ->
  after (Digest.may_have_m256 g) (tail d) = tail d ->
  after (Digest.may_have_m256 g) d = d.
Proof.
  intros Hh Ht.
  cbn [Digest.may_have_m256 Combiner.digest]. unfold Combiner.may_have_m256.
  rewrite after_bind, result_on_head, after_on_head, Hh.
  destruct (result (Digest.may_have_m256 g) (head d)).
  - rewrite after_on_tail. cbn [head tail]. rewrite Ht. destruct d. reflexivity.
  - rewrite after_ret. destruct d. reflexivity.
Qed.

End CombinerRuns.

(** * Calls on a bits-pattern filter *)

Lemma wrap_range (W x : Z) : 0 <= W -> 0 <= wrap W x < 2 ^ W.
Proof.
  intros HW. apply Z.mod_pos_bound. apply Z.pow_pos_nonneg; lia.
Qed.

Lemma lor_range (W a b : Z) :
  0 <= W -> 0 <= a < 2 ^ W -> 0 <= b < 2 ^ W -> 0 <= Z.lor a b < 2 ^ W.
Proof.
  intros HW Ha Hb. split.
  - apply Z.lor_nonneg. lia.
  - apply below_pow2; [assumption| |apply Z.lor_nonneg; lia].
    intros k Hk. rewrite Z.lor_spec.
    rewrite (high_bits_clear W a k), (high_bits_clear W b k) by assumption.
    reflexivity.
Qed.

Lemma array_elements_succ (mem : memory) (array : Z) (count : nat) (stride : Z) :
  array_elements mem array (S count) stride
  = mem array :: array_elements mem (stride + array) count stride.
Proof.
  unfold array_elements. cbn [seq map].
  f_equal.
  - f_equal. lia.
  - rewrite <- seq_shift, map_map. apply map_ext.
    intros i. f_equal. lia.
Qed.

Section Leaf.

Variables mb s : Z.
Hypothesis Hmb : mask_type mb.

Local Notation "'leaf'" := (hb_set_digest_bits_pattern_t mb s).

(** [add_array] is [add] on the elements it reads, in their order, and
    so is [add_sorted_array]. *)
Lemma add_array_elements (mem : memory) (array : Z) (count : nat) (stride : Z)
    (d : leaf) :
  after (BitsPattern.add_array mb s mem array count stride) d
  = after (do_all (BitsPattern.add mb s)
                  (array_elements mem array count stride)) d.
Proof.
  revert array d. induction count as [|n IH]; intros array d.
  - reflexivity.
  - rewrite array_elements_succ. cbn [BitsPattern.add_array do_all].
    rewrite !after_bind. apply IH.
Qed.

Lemma add_sorted_array_elements (mem : memory) (array : Z) (count : nat)
    (stride : Z) (d : leaf) :
  after (BitsPattern.add_sorted_array mb s mem array count stride) d
  = after (do_all (BitsPattern.add mb s)
                  (array_elements mem array count stride)) d
  /\ result (BitsPattern.add_sorted_array mb s mem array count stride) d = true.
Proof.
  revert array d. induction count as [|n IH]; intros array d.
  - split; reflexivity.
  - rewrite array_elements_succ. cbn [BitsPattern.add_sorted_array do_all].
    rewrite !after_bind, result_bind. apply IH.
Qed.

Lemma add_testbit (g k : Z) (d : leaf) :
  Z.testbit (mask (after (BitsPattern.add mb s g) d)) k
  = Z.testbit (mask d) k || (bucket mb s g =? k).
Proof.
  rewrite add_mask, Z.lor_spec, mask_for_testbit by assumption. reflexivity.
Qed.

(** The bits of the mask after a run of [add]: those it had and the
    buckets of the codepoints added. *)
Lemma adds_testbit (gs : list Z) (k : Z) (d : leaf) :
  Z.testbit (mask (after (do_all (BitsPattern.add mb s) gs) d)) k = true
  <-> Z.testbit (mask d) k = true \/ exists g, In g gs /\ bucket mb s g = k.
Proof.
  revert d. induction gs as [|g gs IH]; intros d.
  - cbn [do_all]. rewrite after_ret. split; [auto|].
    intros [H|(g & [] & _)]. assumption.
  - cbn [do_all]. rewrite after_bind, IH, add_testbit, orb_true_iff, Z.eqb_eq.
    split.
    + intros [[H|H]|(g' & Hin & Hb)].
      * left. assumption.
      * right. exists g. split; [left; reflexivity|assumption].
      * right. exists g'. split; [right; assumption|assumption].
    + intros [H|(g' & [->|Hin] & Hb)].
      * left. left. assumption.
      * left. right. assumption.
      * right. exists g'. split; assumption.
Qed.

Lemma mask_for_range (g : Z) :
  0 <= BitsPattern.mask_for mb s g < 2 ^ BitsPattern.mask_bits mb.
Proof.
  unfold BitsPattern.mask_for. apply wrap_range.
  pose proof (mask_bits_range mb Hmb). lia.
Qed.

Lemma adds_representable (gs : list Z) (d : leaf) :
  0 <= mask d < 2 ^ BitsPattern.mask_bits mb ->
  0 <= mask (after (do_all (BitsPattern.add mb s) gs) d)
    < 2 ^ BitsPattern.mask_bits mb.
Proof.
  pose proof (mask_bits_range mb Hmb) as HW.
  revert d. induction gs as [|g gs IH]; intros d Hd.
  - assumption.
  - cbn [do_all]. rewrite after_bind. apply IH.
    rewrite add_mask. apply lor_range; [lia|assumption|apply mask_for_range].
Qed.

Lemma add_range_representable (a b : Z) (d : leaf) :
  0 <= mask d < 2 ^ BitsPattern.mask_bits mb ->
  0 <= mask (after (BitsPattern.add_range mb s a b) d)
    < 2 ^ BitsPattern.mask_bits mb.
Proof.
  pose proof (mask_bits_range mb Hmb) as HW. intros Hd.
  destruct (saturates mb s a b) eqn:Hsat.
  - rewrite add_range_saturated by assumption. apply wrap_range. lia.
  - rewrite add_range_run by assumption.
    apply lor_range; [lia|assumption|].
    unfold BitsPattern.msub. apply wrap_range. lia.
Qed.

(** What a call leaves in a leaf, call by call. *)
Lemma leaf_do_add (c : add_call) (d : leaf) :
  after (do_add c) d
  = match c with
    | Add g => after (BitsPattern.add mb s g) d
    | AddRange a b => after (BitsPattern.add_range mb s a b) d
    | AddArray mem array count stride
    | AddSortedArray mem array count stride =>
        after (do_all (BitsPattern.add mb s)
                      (array_elements mem array count stride)) d
    end.
Proof.
  destruct c as [g|a b|mem array count stride|mem array count stride];
    cbn [do_add Digest.add Digest.add_range Digest.add_array
         Digest.add_sorted_array BitsPattern.digest].
  - reflexivity.
  - rewrite after_bind. reflexivity.
  - apply add_array_elements.
  - rewrite after_bind, after_ret. apply add_sorted_array_elements.
Qed.

Lemma leaf_do_add_representable (c : add_call) (d : leaf) :
  0 <= mask d < 2 ^ BitsPattern.mask_bits mb ->
  0 <= mask (after (do_add c) d) < 2 ^ BitsPattern.mask_bits mb.
Proof.
  intros Hd. rewrite leaf_do_add.
  destruct c as [g|a b|mem array count stride|mem array count stride].
  - apply (adds_representable [g] d Hd).
  - apply add_range_representable. assumption.
  - apply adds_representable. assumption.
  - apply adds_representable. assumption.
Qed.

(** No call clears a bit of the mask. *)
Lemma leaf_do_add_keeps (c : add_call) (d : leaf) (k : Z) :
  k < BitsPattern.mask_bits mb \/ 0 <= mask d < 2 ^ BitsPattern.mask_bits mb ->
  Z.testbit (mask d) k = true ->
  Z.testbit (mask (after (do_add c) d)) k = true.
Proof.
  intros Hk Hbit. rewrite leaf_do_add.
  pose proof (mask_bits_range mb Hmb) as HW.
  assert (Hk0 : 0 <= k).
  { destruct (Z.neg_nonneg_cases k) as [Hneg|]; [|assumption].
    rewrite Z.testbit_neg_r in Hbit by assumption. discriminate. }
  destruct c as [g|a b|mem array count stride|mem array count stride].
  - rewrite add_testbit, Hbit. reflexivity.
  - rewrite add_range_testbit by assumption.
    destruct (saturates mb s a b).
    + apply Z.ltb_lt.
      destruct Hk as [Hk|Hd]; [assumption|].
      destruct (Z.lt_ge_cases k (BitsPattern.mask_bits mb)) as [|Hge];
        [assumption|].
      rewrite (high_bits_clear (BitsPattern.mask_bits mb)) in Hbit
        by (assumption || lia).
      discriminate.
    + rewrite Hbit. reflexivity.
  - apply adds_testbit. left. assumption.
  - apply adds_testbit. left. assumption.
Qed.

(** A call sets the bucket of every codepoint it adds. *)
Lemma leaf_do_add_sets (c : add_call) (d : leaf) (g : Z) :
  0 <= s -> 0 <= mask d < 2 ^ BitsPattern.mask_bits mb ->
  well_formed c -> adds c g ->
  Z.testbit (mask (after (do_add c) d)) (bucket mb s g) = true.
Proof.
  intros Hs Hd Hwf Hadds. rewrite leaf_do_add.
  pose proof (bucket_range mb s g Hmb) as Hb.
  destruct c as [g'|a b|mem array count stride|mem array count stride];
    cbn [adds well_formed] in *.
  - subst g'. rewrite add_testbit, Z.eqb_refl. apply orb_true_r.
  - destruct Hwf as (Ha & Hbc & Hab).
    apply add_range_buckets; try assumption; [lia|].
    right. exists g. split; [assumption|reflexivity].
  - apply adds_testbit. right. exists g. split; [assumption|reflexivity].
  - apply adds_testbit. right. exists g. split; [assumption|reflexivity].
Qed.

End Leaf.

(** * Every digest built from the two templates *)

Ltac combiner_case :=
  cbn [state_of digest_of representable valid mask_subset] in *.

(** A query leaves the state it finds. *)
Lemma may_have_leaves_state (t : digest_t) (g : Z) (d : state_of t) :
  after (Digest.may_have g) d = d.
Proof.
  induction t as [mb s|h IHh tl IHtl].
  - reflexivity.
  - apply combiner_may_have_after; [apply IHh|apply IHtl].
Qed.

Lemma may_have_m256_leaves_state (t : digest_t) (g : m256i) (d : state_of t) :
  after (Digest.may_have_m256 g) d = d.
Proof.
  induction t as [mb s|h IHh tl IHtl].
  - reflexivity.
  - apply combiner_may_have_m256_after; [apply IHh|apply IHtl].
Qed.

Lemma may_have_combiner (h tl : digest_t) (g : Z)
    (d : hb_set_digest_combiner_t (state_of h) (state_of tl)) :
  result (Digest.may_have g) d
  = result (Digest.may_have g) (head d) && result (Digest.may_have g) (tail d).
Proof. apply combiner_may_have. apply may_have_leaves_state. Qed.

Lemma init_representable (t : digest_t) (d : state_of t) :
  valid t -> representable t (after Digest.init d).
Proof.
  induction t as [mb s|h IHh tl IHtl]; intros Hv.
  - destruct Hv as (Hmb & _). cbn.
    pose proof (mask_bits_range mb Hmb).
    split; [lia|apply Z.pow_pos_nonneg; lia].
  - combiner_case. destruct Hv as [Hvh Hvt].
    pose proof (combiner_after_call (head_t := state_of h)
                  (tail_t := state_of tl) Init d) as E.
    cbn [do_call] in E. rewrite E. split; [apply IHh|apply IHtl]; assumption.
Qed.

Lemma do_add_representable (t : digest_t) (c : add_call) (d : state_of t) :
  valid t -> representable t d -> representable t (after (do_add c) d).
Proof.
  induction t as [mb s|h IHh tl IHtl]; intros Hv Hd.
  - destruct Hv as (Hmb & _). apply leaf_do_add_representable; assumption.
  - combiner_case. destruct Hv as [Hvh Hvt]. destruct Hd as [Hdh Hdt].
    rewrite (combiner_after_add (head_t := state_of h) (tail_t := state_of tl)).
    split; [apply IHh|apply IHtl]; assumption.
Qed.

Lemma do_adds_representable (t : digest_t) (cs : list add_call) (d : state_of t) :
  valid t -> representable t d ->
  representable t (after (do_all do_add cs) d).
Proof.
  intros Hv. revert d. induction cs as [|c cs IH]; intros d Hd.
  - assumption.
  - cbn [do_all]. rewrite after_bind. apply IH.
    apply do_add_representable; assumption.
Qed.

(** A call keeps every positive answer. *)
Lemma do_add_keeps_may_have (t : digest_t) (c : add_call) (g : Z) (d : state_of t) :
  valid t ->
  result (Digest.may_have g) d = true ->
  result (Digest.may_have g) (after (do_add c) d) = true.
Proof.
  induction t as [mb s|h IHh tl IHtl]; intros Hv Hg.
  - destruct Hv as (Hmb & _).
    change (result (BitsPattern.may_have mb s g) (after (do_add c) d) = true).
    change (result (BitsPattern.may_have mb s g) d = true) in Hg.
    rewrite may_have_testbit in * by assumption.
    apply leaf_do_add_keeps; [assumption| |assumption].
    left. apply bucket_range. assumption.
  - combiner_case. destruct Hv as [Hvh Hvt].
    rewrite may_have_combiner in Hg. rewrite may_have_combiner.
    apply andb_true_iff in Hg as [Hgh Hgt].
    rewrite (combiner_after_add (head_t := state_of h) (tail_t := state_of tl)).
    cbn [head tail]. apply andb_true_iff.
    split; [apply IHh|apply IHtl]; assumption.
Qed.

Lemma do_adds_keep_may_have (t : digest_t) (cs : list add_call) (g : Z)
    (d : state_of t) :
  valid t ->
  result (Digest.may_have g) d = true ->
  result (Digest.may_have g) (after (do_all do_add cs) d) = true.
Proof.
  intros Hv. revert d. induction cs as [|c cs IH]; intros d Hg.
  - assumption.
  - cbn [do_all]. rewrite after_bind. apply IH.
    apply do_add_keeps_may_have; assumption.
Qed.

(** A call makes the answer positive for every codepoint it adds. *)
Lemma do_add_sets_may_have (t : digest_t) (c : add_call) (g : Z) (d : state_of t) :
  valid t -> representable t d -> well_formed c -> adds c g ->
  result (Digest.may_have g) (after (do_add c) d) = true.
Proof.
  induction t as [mb s|h IHh tl IHtl]; intros Hv Hd Hwf Hadds.
  - destruct Hv as (Hmb & Hs & _).
    change (result (BitsPattern.may_have mb s g) (after (do_add c) d) = true).
    rewrite may_have_testbit by assumption.
    apply leaf_do_add_sets; assumption.
  - combiner_case. destruct Hv as [Hvh Hvt]. destruct Hd as [Hdh Hdt].
    rewrite may_have_combiner.
    rewrite (combiner_after_add (head_t := state_of h) (tail_t := state_of tl)).
    cbn [head tail]. apply andb_true_iff.
    split; [apply IHh|apply IHtl]; assumption.
Qed.

Lemma do_add_mask_subset (t : digest_t) (c : add_call) (d : state_of t) :
  valid t -> representable t d -> mask_subset t d (after (do_add c) d).
Proof.
  induction t as [mb s|h IHh tl IHtl]; intros Hv Hd.
  - destruct Hv as (Hmb & _). intros k Hk.
    apply leaf_do_add_keeps; [assumption| |assumption].
    right. assumption.
  - combiner_case. destruct Hv as [Hvh Hvt]. destruct Hd as [Hdh Hdt].
    rewrite (combiner_after_add (head_t := state_of h) (tail_t := state_of tl)).
    split; [apply IHh|apply IHtl]; assumption.
Qed.

Lemma mask_subset_refl (t : digest_t) (d : state_of t) : mask_subset t d d.
Proof.
  induction t as [mb s|h IHh tl IHtl].
  - intros k Hk. assumption.
  - split; [apply IHh|apply IHtl].
Qed.

Lemma mask_subset_trans (t : digest_t) (d1 d2 d3 : state_of t) :
  mask_subset t d1 d2 -> mask_subset t d2 d3 -> mask_subset t d1 d3.
Proof.
  induction t as [mb s|h IHh tl IHtl].
  - intros H12 H23 k Hk. apply H23, H12, Hk.
  - intros [Hh12 Ht12] [Hh23 Ht23].
    split; [eapply IHh|eapply IHtl]; eassumption.
Qed.

Lemma do_adds_mask_subset (t : digest_t) (cs : list add_call) (d : state_of t) :
  valid t -> representable t d ->
  mask_subset t d (after (do_all do_add cs) d).
Proof.
  intros Hv. revert d. induction cs as [|c cs IH]; intros d Hd.
  - apply mask_subset_refl.
  - cbn [do_all]. rewrite after_bind.
    apply mask_subset_trans with (after (do_add c) d).
    + apply do_add_mask_subset; assumption.
    + apply IH. apply do_add_representable; assumption.
Qed.

Lemma add_sorted_array_after (t : digest_t) (mem : memory) (array : Z)
    (count : nat) (stride : Z) (d : state_of t) :
  after (Digest.add_sorted_array mem array count stride) d
  = after (Digest.add_array mem array count stride) d.
Proof.
  induction t as [mb s|h IHh tl IHtl].
  - cbn [state_of digest_of Digest.add_sorted_array Digest.add_array
         BitsPattern.digest] in *.
    rewrite add_array_elements. apply add_sorted_array_elements.
  - combiner_case.
    cbn [Digest.add_sorted_array Digest.add_array Combiner.digest].
    unfold Combiner.add_sorted_array, Combiner.add_array.
    rewrite !after_bind, !after_on_head, !after_on_tail, after_ret.
    cbn [head tail]. rewrite IHh, IHtl. reflexivity.
Qed.

Lemma add_sorted_array_result (t : digest_t) (mem : memory) (array : Z)
    (count : nat) (stride : Z) (d : state_of t) :
  result (Digest.add_sorted_array mem array count stride) d = true.
Proof.
  destruct t as [mb s|h tl].
  - apply add_sorted_array_elements.
  - combiner_case.
    cbn [Digest.add_sorted_array Combiner.digest].
    unfold Combiner.add_sorted_array.
    rewrite !result_bind. reflexivity.
Qed.

(** * The properties of the specification *)

(** C1, soundness: in every digest type that compiles, after [init] and
    any sequence of [add], [add_range] (on a range that is not
    inverted), [add_array] and [add_sorted_array] calls, [may_have]
    answers true for every codepoint one of the calls added. *)
Theorem soundness (t : digest_t) (d0 : state_of t) (calls : list add_call)
    (c : Z) :
  valid t ->
  Forall well_formed calls ->
  Exists (fun k => adds k c) calls ->
  result (Digest.may_have c)
         (after (Digest.init ;; do_all do_add calls) d0) = true.
Proof.
  intros Hv Hwf Hin. rewrite after_bind.
  pose proof (init_representable t d0 Hv) as Hd.
  generalize dependent (after Digest.init d0). intros d Hd. clear d0.
  revert d Hd. induction Hin as [k ks Hk|k ks Hks IH]; intros d Hd;
    inversion Hwf as [|? ? Hwfk Hwfks]; subst;
    cbn [do_all]; rewrite after_bind.
  - apply do_adds_keep_may_have; [assumption|].
    apply do_add_sets_may_have; assumption.
  - apply IH; [assumption|].
    apply do_add_representable; assumption.
Qed.

Lemma soundness_witness :
  result (Digest.may_have 12)
         (after (Digest.init ;;
                 do_all do_add [Add 1000; AddRange 10 14; Add 77])
                (Build_hb_set_digest_combiner_t
                   (Build_hb_set_digest_bits_pattern_t 123)
                   (Build_hb_set_digest_combiner_t
                      (Build_hb_set_digest_bits_pattern_t 456)
                      (Build_hb_set_digest_bits_pattern_t 789))
                 : state_of production)) = true.
Proof.
  apply (soundness production).
  - vm_compute. intuition discriminate.
  - repeat constructor; vm_compute; intuition discriminate.
  - apply Exists_cons_tl, Exists_cons_hd. simpl. lia.
Defined.

(** C6, monotonicity: in every digest type that compiles, a codepoint
    for which [may_have] answers true keeps that answer through every
    later [add], [add_range], [add_array] and [add_sorted_array] call;
    and no such call clears a bit of a mask. *)
Theorem monotonicity (t : digest_t) (d : state_of t) (calls : list add_call) :
  valid t ->
  (forall c, result (Digest.may_have c) d = true ->
             result (Digest.may_have c) (after (do_all do_add calls) d) = true)
  /\ (representable t d -> mask_subset t d (after (do_all do_add calls) d)).
Proof.
  intros Hv. split.
  - intros c. apply do_adds_keep_may_have. assumption.
  - apply do_adds_mask_subset. assumption.
Qed.

Lemma monotonicity_witness :
  let d := after (Digest.add 5) empty32 in
  let calls := [AddRange 0 40; Add 7; AddRange 9 3] in
  (forall c, result (Digest.may_have c) d = true ->
             result (Digest.may_have c) (after (do_all do_add calls) d) = true)
  /\ (representable (bits_pattern uint32_t 0) d ->
      mask_subset (bits_pattern uint32_t 0) d (after (do_all do_add calls) d)).
Proof.
  apply (monotonicity (bits_pattern uint32_t 0)).
  vm_compute. intuition discriminate.
Defined.

(** C4, conjunction law: in every state a combiner reaches through a
    sequence of [init] and [add*] calls, its [may_have] is the
    conjunction of the [may_have] of its two members, and each member is
    in the state the same calls leave it in on its own. *)
Theorem conjunction_law (head_t tail_t : digest_t) (calls : list call)
    (d0 : hb_set_digest_combiner_t (state_of head_t) (state_of tail_t))
    (c : Z) :
  let d := after (do_all do_call calls) d0 in
  result (Digest.may_have c) d
  = result (Digest.may_have c) (head d) && result (Digest.may_have c) (tail d)
  /\ head d = after (do_all do_call calls) (head d0)
  /\ tail d = after (do_all do_call calls) (tail d0).
Proof.
  intros d. split.
  - apply may_have_combiner.
  - subst d. rewrite combiner_after_calls. split; reflexivity.
Qed.

(** C7, sorted arrays: in every digest type [add_sorted_array] leaves
    the state that [add_array] leaves on the same buffer, count and
    stride, hence the same [may_have] answers, and returns true. *)
Theorem add_sorted_array_is_add_array (t : digest_t) (mem : memory)
    (array : Z) (count : nat) (stride : Z) (d : state_of t) :
  after (Digest.add_sorted_array mem array count stride) d
  = after (Digest.add_array mem array count stride) d
  /\ (forall c,
        result (Digest.may_have c)
               (after (Digest.add_sorted_array mem array count stride) d)
        = result (Digest.may_have c)
                 (after (Digest.add_array mem array count stride) d))
  /\ result (Digest.add_sorted_array mem array count stride) d = true.
Proof.
  split; [|split].
  - apply add_sorted_array_after.
  - intros c. rewrite add_sorted_array_after. reflexivity.
  - apply add_sorted_array_result.
Qed.

(** C10, purity of queries: the scalar and the vector [may_have] of
    every digest type leave the state as they find it, so that a second
    call with the same argument gives the same answer. *)
Theorem may_have_is_pure (t : digest_t) (d : state_of t) (c : Z) (v : m256i) :
  after (Digest.may_have c) d = d
  /\ after (Digest.may_have_m256 v) d = d
  /\ result (Digest.may_have c) (after (Digest.may_have c) d)
     = result (Digest.may_have c) d
  /\ result (Digest.may_have_m256 v) (after (Digest.may_have_m256 v) d)
     = result (Digest.may_have_m256 v) d.
Proof.
  repeat split.
  - apply may_have_leaves_state.
  - apply may_have_m256_leaves_state.
  - rewrite may_have_leaves_state. reflexivity.
  - rewrite may_have_m256_leaves_state. reflexivity.
Qed.

(** C8, scenario D: the production digest, after [init] and [add] of
    glyph 1000, answers true for 1000, and false for glyph 0, whose
    bucket differs from that of 1000 in each of the three filters. *)
Theorem scenario_D (d0 : hb_set_digest_t) :
  let d := after (Digest.init ;; Digest.add 1000) d0 in
  result (Digest.may_have 1000) d = true
  /\ exists g,
       is_codepoint g
       /\ bucket uint32_t 4 g <> bucket uint32_t 4 1000
       /\ bucket uint32_t 0 g <> bucket uint32_t 0 1000
       /\ bucket uint32_t 9 g <> bucket uint32_t 9 1000
       /\ result (Digest.may_have g) d = false.
Proof.
  split.
  - reflexivity.
  - exists 0. repeat split; try (vm_compute; congruence).
Qed.

Lemma in_interval (a b g : Z) : In g (interval a b) <-> a <= g <= b.
Proof.
  unfold interval. rewrite in_map_iff. split.
  - intros (i & <- & Hi). apply in_seq in Hi. lia.
  - intros Hg. exists (Z.to_nat (g - a)). split; [lia|].
    apply in_seq. lia.
Qed.

(** C2, range and elements: on a bits-pattern filter and for codepoints
    [a <= b], [add_range a b] leaves the mask that [add] of every
    codepoint from [a] to [b] leaves, and it keeps the answer of
    [may_have] for every codepoint outside the range whose bucket is the
    bucket of no codepoint of the range. *)
Theorem add_range_elementwise (mb s a b : Z)
    (d : hb_set_digest_bits_pattern_t mb s) :
  valid (bits_pattern mb s) -> representable (bits_pattern mb s) d ->
  is_codepoint a -> is_codepoint b -> a <= b ->
  mask (after (Digest.add_range a b) d) = mask (after (add_each a b) d)
  /\ forall c,
       ~ a <= c <= b ->
       (forall c', a <= c' <= b -> bucket mb s c' <> bucket mb s c) ->
       result (Digest.may_have c) (after (Digest.add_range a b) d)
       = result (Digest.may_have c) d.
Proof.
  intros (Hmb & Hs & _) Hd Ha Hb Hab. cbn [representable] in Hd.
  cbn [Digest.add_range Digest.may_have BitsPattern.digest].
  split.
  - apply Z.bits_inj'. intros k Hk. apply eq_true_iff_eq.
    rewrite add_range_buckets by assumption.
    unfold add_each. cbn [Digest.add BitsPattern.digest].
    rewrite adds_testbit by assumption.
    split; (intros [H|(g & Hg & Hbk)]; [left; assumption|right]);
      exists g; (split; [apply in_interval; assumption|assumption]).
  - intros c Hout Hfree.
    rewrite !may_have_testbit by assumption. apply eq_true_iff_eq.
    pose proof (bucket_range mb s c Hmb) as Hrange.
    rewrite add_range_buckets by (assumption || lia).
    split; [|auto].
    intros [Hold|(c' & Hc' & Hbk)]; [assumption|].
    exfalso. apply (Hfree c'); assumption.
Qed.

Lemma add_range_elementwise_witness :
  let d : hb_set_digest_bits_pattern_t uint32_t 0 :=
    Build_hb_set_digest_bits_pattern_t 32 in
  mask (after (Digest.add_range 30 33) d) = mask (after (add_each 30 33) d)
  /\ forall c,
       ~ 30 <= c <= 33 ->
       (forall c', 30 <= c' <= 33 ->
                   bucket uint32_t 0 c' <> bucket uint32_t 0 c) ->
       result (Digest.may_have c) (after (Digest.add_range 30 33) d)
       = result (Digest.may_have c) d.
Proof.
  apply (add_range_elementwise uint32_t 0 30 33).
  - vm_compute. intuition discriminate.
  - vm_compute. intuition discriminate.
  - vm_compute. intuition discriminate.
  - vm_compute. intuition discriminate.
  - lia.
Defined.

(** The run of the second branch of [add_range] never fills the mask:
    the bucket after that of [b] stays as it was. *)
Lemma unsaturated_gap (mb s a b : Z) (d : hb_set_digest_bits_pattern_t mb s) :
  mask_type mb -> saturates mb s a b = false ->
  let k := (bucket mb s b + 1) mod BitsPattern.mask_bits mb in
  0 <= k < BitsPattern.mask_bits mb /\
  Z.testbit (mask (after (BitsPattern.add_range mb s a b) d)) k
  = Z.testbit (mask d) k.
Proof.
  intros Hmb Hsat k.
  pose proof (mask_bits_cases mb Hmb) as HW. cbn zeta in HW.
  assert (Hk : 0 <= k < BitsPattern.mask_bits mb).
  { apply Z.mod_pos_bound. pose proof (mask_bits_range mb Hmb). lia. }
  split; [assumption|].
  rewrite add_range_testbit, Hsat by (assumption || lia).
  replace (if bucket mb s a <=? bucket mb s b
           then (bucket mb s a <=? k) && (k <=? bucket mb s b)
           else (k <=? bucket mb s b) || (bucket mb s a <=? k))
    with false; [rewrite andb_false_r; apply orb_false_r|].
  unfold saturates, wrap in Hsat. apply Z.leb_gt in Hsat.
  change (2 ^ codepoint_bits) with 4294967296 in Hsat.
  subst k. rewrite !bucket_mod by assumption.
  remember (BitsPattern.mask_bits mb) as W eqn:EW. clear EW.
  remember (Z.shiftr a s) as x eqn:Ex. clear Ex.
  remember (Z.shiftr b s) as y eqn:Ey. clear Ey.
  symmetry.
  destruct (Z.leb_spec (x mod W) (y mod W)).
  - apply andb_false_iff. rewrite !Z.leb_gt.
    destruct HW as [->|[->|[->|[->| ->]]]]; euclid.
  - apply orb_false_iff. rewrite !Z.leb_gt.
    destruct HW as [->|[->|[->|[->| ->]]]]; euclid.
Qed.

Lemma all_ones_bits (mb k : Z) :
  mask_type mb -> 0 <= k < BitsPattern.mask_bits mb ->
  Z.testbit (all_ones mb) k = true.
Proof.
  intros Hmb Hk. unfold all_ones.
  rewrite all_ones_testbit by lia. apply Z.ltb_lt. lia.
Qed.

Lemma num_buckets_mask_bits (mb : Z) :
  mask_type mb -> num_buckets mb = BitsPattern.mask_bits mb.
Proof. intros Hmb. symmetry. apply mask_bits_pow2. assumption. Qed.

Lemma saturation_by_buckets_fails :
  ~ (mask (after (Digest.add_range 0 40) empty32) = all_ones uint32_t
     <-> spec_saturates uint32_t 0 0 40 = true).
Proof.
  intros [Hsat _].
  assert (E : mask (after (Digest.add_range 0 40) empty32) = all_ones uint32_t)
    by reflexivity.
  apply Hsat in E. vm_compute in E. discriminate.
Qed.

(** C3, saturation, as the code has it: [add_range a b] sets the mask to
    all-ones, whatever it held, exactly when the 32-bit difference of
    the shifted codepoints, not of their buckets, is at least
    [mask_bits - 1]; from an empty mask the result is all-ones in that
    case only.  For a range that is not inverted the difference is the
    plain one.  With a 32-bit mask and shift 0, [add_range 0 40] leaves
    all-ones and [may_have] then answers true for every codepoint. *)
Theorem add_range_saturation (mb s a b : Z)
    (d : hb_set_digest_bits_pattern_t mb s) :
  valid (bits_pattern mb s) ->
  (saturates mb s a b = true ->
   mask (after (Digest.add_range a b) d) = all_ones mb)
  /\ (mask (after (Digest.init ;; Digest.add_range a b) d) = all_ones mb
      <-> saturates mb s a b = true)
  /\ (is_codepoint a -> is_codepoint b -> a <= b ->
      saturates mb s a b
      = (BitsPattern.mask_bits mb - 1 <=? Z.shiftr b s - Z.shiftr a s))
  /\ forall (d32 : hb_set_digest_bits_pattern_t uint32_t 0) (x : Z),
       mask (after (Digest.add_range 0 40) d32) = all_ones uint32_t
       /\ result (Digest.may_have x) (after (Digest.add_range 0 40) d32) = true.
Proof.
  intros (Hmb & Hs & _).
  cbn [Digest.add_range Digest.may_have Digest.init BitsPattern.digest].
  split; [|split; [|split]].
  - apply add_range_saturated.
  - rewrite after_bind. split; [|apply add_range_saturated].
    intros Hfull. destruct (saturates mb s a b) eqn:Hsat; [reflexivity|].
    exfalso.
    destruct (unsaturated_gap mb s a b
                (after (BitsPattern.init mb s) d) Hmb Hsat) as [Hk Hbit].
    rewrite Hfull, all_ones_bits in Hbit by assumption.
    cbn in Hbit. rewrite Z.bits_0 in Hbit. discriminate.
  - intros Ha Hb Hab. apply saturates_ordered; assumption.
  - intros d32 x.
    assert (Hm32 : mask_type uint32_t) by (vm_compute; tauto).
    assert (E : mask (after (BitsPattern.add_range uint32_t 0 0 40) d32)
                = all_ones uint32_t) by (apply add_range_saturated; reflexivity).
    split; [assumption|].
    rewrite may_have_testbit, E by assumption.
    apply all_ones_bits; [assumption|]. apply bucket_range. assumption.
Qed.

Lemma add_range_saturation_witness :
  saturates uint32_t 0 3 70 = true /\
  mask (after (Digest.add_range 3 70) empty32) = all_ones uint32_t.
Proof.
  split; [reflexivity|].
  refine (proj1 (add_range_saturation uint32_t 0 3 70 empty32 _) _).
  - vm_compute. intuition discriminate.
  - reflexivity.
Defined.

Lemma add_range_result (t : digest_t) (a b : Z) (d : state_of t) :
  result (Digest.add_range a b) d = true.
Proof.
  destruct t as [mb s|h tl].
  - apply add_range_returns.
  - combiner_case. cbn [Digest.add_range Combiner.digest].
    unfold Combiner.add_range. rewrite !result_bind. reflexivity.
Qed.

Lemma inverted_range_not_saturated :
  Z.shiftr 0 0 < Z.shiftr 4294967295 0
  /\ wrap codepoint_bits (Z.shiftr 0 0 - Z.shiftr 4294967295 0) = 1
  /\ mask (after (Digest.add_range 4294967295 0) empty32) = 0x80000001
  /\ mask (after (Digest.add_range 4294967295 0) empty32) <> all_ones uint32_t.
Proof.
  repeat split. vm_compute. discriminate.
Qed.

(** C9, inverted ranges, as the code has it: [add_range] returns true
    on every digest type and for every pair of codepoints.  On a
    bits-pattern filter, when [b >> shift] is below [a >> shift] the
    32-bit difference wraps to [2^32 - ((a >> shift) - (b >> shift))],
    and the mask is all-ones after the call when that is at least
    [mask_bits - 1], as it always is for a shift of one or more; when
    [a > b] share the shifted value, the call adds the bit of that one
    bucket. *)
Theorem add_range_inverted (t : digest_t) (dt : state_of t) (mb s a b : Z)
    (d : hb_set_digest_bits_pattern_t mb s) :
  valid (bits_pattern mb s) -> is_codepoint a -> is_codepoint b ->
  result (Digest.add_range a b) dt = true
  /\ result (Digest.add_range a b) d = true
  /\ (Z.shiftr b s < Z.shiftr a s ->
      wrap codepoint_bits (Z.shiftr b s - Z.shiftr a s)
      = 2 ^ codepoint_bits - (Z.shiftr a s - Z.shiftr b s)
      /\ (1 <= s \/
          BitsPattern.mask_bits mb - 1
          <= 2 ^ codepoint_bits - (Z.shiftr a s - Z.shiftr b s) ->
          mask (after (Digest.add_range a b) d) = all_ones mb))
  /\ (b < a -> Z.shiftr a s = Z.shiftr b s ->
      mask (after (Digest.add_range a b) d)
      = Z.lor (mask d) (BitsPattern.mask_for mb s a)).
Proof.
  intros (Hmb & Hs & _) Ha Hb.
  pose proof (mask_bits_range mb Hmb) as HW.
  pose proof (shiftr_codepoint s a Hs Ha) as Hsa.
  pose proof (shiftr_codepoint s b Hs Hb) as Hsb.
  split; [apply add_range_result|].
  split; [apply add_range_returns|].
  cbn [Digest.add_range BitsPattern.digest].
  split.
  - intros Hlt.
    assert (Hwrap : wrap codepoint_bits (Z.shiftr b s - Z.shiftr a s)
                    = 2 ^ codepoint_bits - (Z.shiftr a s - Z.shiftr b s)).
    { unfold wrap.
      replace (Z.shiftr b s - Z.shiftr a s)
        with (2 ^ codepoint_bits - (Z.shiftr a s - Z.shiftr b s)
              + (-1) * 2 ^ codepoint_bits) by lia.
      rewrite Z.mod_add by (change (2 ^ codepoint_bits) with 4294967296; lia).
      apply Z.mod_small. lia. }
    split; [assumption|].
    intros Hwide. apply add_range_saturated.
    unfold saturates. rewrite Hwrap. apply Z.leb_le.
    destruct Hwide as [Hs1|Hle]; [|assumption].
    assert (Hhalf : Z.shiftr a s < 2 ^ 31).
    { rewrite Z.shiftr_div_pow2 by assumption.
      apply Z.div_lt_upper_bound; [apply Z.pow_pos_nonneg; lia|].
      destruct Ha as [_ Ha]. change (2 ^ codepoint_bits) with (2 ^ 1 * 2 ^ 31) in Ha.
      apply Z.lt_le_trans with (2 ^ 1 * 2 ^ 31); [assumption|].
      apply Z.mul_le_mono_nonneg_r; [lia|].
      apply Z.pow_le_mono_r; lia. }
    change (2 ^ codepoint_bits) with 4294967296.
    change (2 ^ 31) with 2147483648 in Hhalf. lia.
  - intros Hba Hsame.
    assert (Hsat : saturates mb s a b = false).
    { unfold saturates. rewrite Hsame, Z.sub_diag. apply Z.leb_gt.
      unfold wrap. rewrite Z.mod_0_l by (vm_compute; discriminate). lia. }
    rewrite add_range_run by assumption.
    assert (Hmask : BitsPattern.mask_for mb s b = BitsPattern.mask_for mb s a).
    { unfold BitsPattern.mask_for. rewrite Hsame. reflexivity. }
    rewrite Hmask. f_equal.
    pose proof (mask_for_range mb s Hmb a) as Hr.
    unfold BitsPattern.msub, BitsPattern.madd, wrap.
    rewrite Z.sub_diag, Z.ltb_irrefl. cbn [Z.b2z].
    rewrite Z.mod_0_l by (apply Z.pow_nonzero; lia).
    rewrite Z.add_0_r, Z.sub_0_r, Z.mod_mod by (apply Z.pow_nonzero; lia).
    apply Z.mod_small. assumption.
Qed.

Lemma add_range_inverted_witness :
  let d : hb_set_digest_bits_pattern_t uint32_t 4 :=
    Build_hb_set_digest_bits_pattern_t 1 in
  Z.shiftr 3 4 < Z.shiftr 1000 4
  /\ mask (after (Digest.add_range 1000 3) d) = all_ones uint32_t
  /\ mask (after (Digest.add_range 1001 1000) d)
     = Z.lor 1 (BitsPattern.mask_for uint32_t 4 1001).
Proof.
  intros d. split; [reflexivity|]. split.
  - refine (proj2 (proj1 (proj2 (proj2
             (add_range_inverted production
                (Build_hb_set_digest_combiner_t
                   (Build_hb_set_digest_bits_pattern_t 0)
                   (Build_hb_set_digest_combiner_t
                      (Build_hb_set_digest_bits_pattern_t 0)
                      (Build_hb_set_digest_bits_pattern_t 0)))
                uint32_t 4 1000 3 d _ _ _))) _) _).
    + vm_compute. intuition discriminate.
    + vm_compute. intuition discriminate.
    + vm_compute. intuition discriminate.
    + reflexivity.
    + left. lia.
  - refine (proj2 (proj2 (proj2
             (add_range_inverted (bits_pattern uint32_t 4) d
                uint32_t 4 1001 1000 d _ _ _))) _ _).
    + vm_compute. intuition discriminate.
    + vm_compute. intuition discriminate.
    + vm_compute. intuition discriminate.
    + lia.
    + reflexivity.
Defined.

(** * The vector query *)

Lemma shifted_lanes (s : Z) (v : m256i) :
  0 <= s < codepoint_bits ->
  BitsPattern.shifted s v = map8 (fun x => Z.shiftr x s) v.
Proof.
  intros Hs. unfold BitsPattern.shifted, Avx2._mm256_srli_epi32.
  change codepoint_bits with 32 in Hs.
  destruct (Z.eqb_spec s 0) as [->|Hne].
  - destruct v. reflexivity.
  - destruct (Z.ltb_spec 31 s); [lia|]. reflexivity.
Qed.

(** With a mask of at most 32 bits every lane of [mask_for] holds the
    mask of the codepoint of that lane. *)
Lemma mask_for_m256_lanes (mb s : Z) (v : m256i) :
  mask_type mb -> mb <= 4 -> 0 <= s < codepoint_bits ->
  BitsPattern.mask_for_m256 mb s v = map8 (fun g => 2 ^ bucket mb s g) v.
Proof.
  intros Hmb Hle Hs. unfold BitsPattern.mask_for_m256.
  rewrite shifted_lanes by assumption.
  assert (HW : 8 <= BitsPattern.mask_bits mb <= 32)
    by (pose proof (mask_bits_range mb Hmb); unfold BitsPattern.mask_bits in *; lia).
  assert (Hlane : forall g,
             (if 31 <? Z.land (Z.shiftr g s) (wrap 32 (BitsPattern.mask_bits mb - 1))
              then 0
              else wrap 32 (Z.shiftl (wrap 32 1)
                     (Z.land (Z.shiftr g s)
                             (wrap 32 (BitsPattern.mask_bits mb - 1)))))
             = 2 ^ bucket mb s g).
  { intros g.
    assert (Hw : wrap 32 (BitsPattern.mask_bits mb - 1)
                 = BitsPattern.mask_bits mb - 1).
    { unfold wrap. apply Z.mod_small.
      change (2 ^ 32) with 4294967296. lia. }
    rewrite Hw. fold (bucket mb s g).
    pose proof (bucket_range mb s g Hmb) as Hb.
    destruct (Z.ltb_spec 31 (bucket mb s g)); [lia|].
    change (wrap 32 1) with 1.
    rewrite Z.shiftl_mul_pow2, Z.mul_1_l by lia.
    unfold wrap. apply Z.mod_small. split.
    - apply Z.pow_nonneg. lia.
    - apply Z.pow_lt_mono_r; lia. }
  destruct v as [g0 g1 g2 g3 g4 g5 g6 g7].
  unfold Avx2._mm256_sllv_epi32, Avx2._mm256_and_si256, Avx2._mm256_set1_epi32.
  unfold zip8, map8. cbn [e0 e1 e2 e3 e4 e5 e6 e7].
  rewrite !Hlane. reflexivity.
Qed.

(** The vector query on a filter whose mask has at most 32 bits: true
    when the scalar query is true for one of the eight lanes. *)
Lemma may_have_m256_narrow (mb s : Z) (d : hb_set_digest_bits_pattern_t mb s)
    (v : m256i) :
  valid (bits_pattern mb s) -> mb <= 4 ->
  representable (bits_pattern mb s) d ->
  result (Digest.may_have_m256 v) d
  = existsb (fun g => result (Digest.may_have g) d) (lanes v).
Proof.
  intros (Hmb & Hs & Hlt & _) Hle Hd. cbn [representable] in Hd.
  cbn [Digest.may_have_m256 Digest.may_have BitsPattern.digest].
  assert (HW : 8 <= BitsPattern.mask_bits mb <= 32)
    by (pose proof (mask_bits_range mb Hmb); unfold BitsPattern.mask_bits in *; lia).
  assert (Hm : wrap 32 (mask d) = mask d).
  { unfold wrap. apply Z.mod_small. split; [lia|].
    apply Z.lt_le_trans with (2 ^ BitsPattern.mask_bits mb); [lia|].
    apply Z.pow_le_mono_r; lia. }
  assert (Hlane : forall g,
             (Z.land (Z.land (mask d) (2 ^ bucket mb s g))
                     (Z.land (mask d) (2 ^ bucket mb s g)) =? 0)
             = negb (result (BitsPattern.may_have mb s g) d)).
  { intros g. rewrite Z.land_diag, may_have_testbit by assumption.
    apply land_pow2_eqb. apply bucket_range. assumption. }
  unfold result at 1, BitsPattern.may_have_m256, bind, BitsPattern.get_mask, ret.
  cbn [fst]. rewrite mask_for_m256_lanes by (assumption || lia).
  unfold BitsPattern.m256_is_not_zero, Avx2._mm256_testz_si256,
    Avx2._mm256_and_si256, Avx2._mm256_set1_epi32.
  rewrite Hm. destruct v as [g0 g1 g2 g3 g4 g5 g6 g7].
  unfold zip8, map8, lanes. cbn [e0 e1 e2 e3 e4 e5 e6 e7 forallb existsb].
  rewrite !Hlane.
  repeat (destruct (result (BitsPattern.may_have mb s _) d);
          cbn [negb andb orb]; try reflexivity).
Qed.

(** C5, vector and scalar queries: with a 64-bit mask the vector query
    misses a codepoint that was added, for which the scalar query
    answers true.  The broadcast keeps the low 32 bits of the mask and
    the lane shift clears a lane whose bucket is above 31. *)
Theorem may_have_m256_misses_wide_mask :
  let d := after (Digest.init ;; Digest.add 40)
                 (Build_hb_set_digest_bits_pattern_t 0
                  : hb_set_digest_bits_pattern_t uint64_t 0) in
  valid (bits_pattern uint64_t 0)
  /\ mask d = 2 ^ 40
  /\ result (Digest.may_have 40) d = true
  /\ result (Digest.may_have_m256 (M256 40 40 40 40 40 40 40 40)) d = false.
Proof.
  repeat split; vm_compute; intuition discriminate.
Qed.

(** * Further properties of the filters *)

Lemma leaf_ext (mb s : Z) (d d' : hb_set_digest_bits_pattern_t mb s) :
  mask d = mask d' -> d = d'.
Proof. destruct d, d'. cbn. intros ->. reflexivity. Qed.

(** The bits a call adds to a mask: the buckets of the codepoints it
    adds, and no other. *)
Lemma leaf_do_add_bits (mb s : Z) (c : add_call)
    (d : hb_set_digest_bits_pattern_t mb s) (k : Z) :
  mask_type mb -> 0 <= s ->
  0 <= mask d < 2 ^ BitsPattern.mask_bits mb ->
  well_formed c -> 0 <= k ->
  Z.testbit (mask (after (do_add c) d)) k = true
  <-> Z.testbit (mask d) k = true \/ exists g, adds c g /\ bucket mb s g = k.
Proof.
  intros Hmb Hs Hd Hwf Hk. rewrite leaf_do_add.
  destruct c as [g'|a b|mem array count stride|mem array count stride];
    cbn [adds well_formed] in *.
  - rewrite add_testbit, orb_true_iff, Z.eqb_eq by assumption.
    split; (intros [H|H]; [left; assumption|right]).
    + exists g'. split; [reflexivity|assumption].
    + destruct H as (g & -> & Hb). assumption.
  - destruct Hwf as (Ha & Hb & Hab). apply add_range_buckets; assumption.
  - apply adds_testbit. assumption.
  - apply adds_testbit. assumption.
Qed.

Lemma leaf_calls_bits (mb s : Z) (cs : list add_call)
    (d : hb_set_digest_bits_pattern_t mb s) (k : Z) :
  mask_type mb -> 0 <= s ->
  0 <= mask d < 2 ^ BitsPattern.mask_bits mb ->
  Forall well_formed cs -> 0 <= k ->
  Z.testbit (mask (after (do_all do_add cs) d)) k = true
  <-> Z.testbit (mask d) k = true \/
      exists g, Exists (fun c => adds c g) cs /\ bucket mb s g = k.
Proof.
  intros Hmb Hs Hd Hwf Hk. revert d Hd.
  induction Hwf as [|c cs Hc Hcs IH]; intros d Hd.
  - cbn [do_all]. rewrite after_ret. split; [auto|].
    intros [H|(g & Hex & _)]; [assumption|]. inversion Hex.
  - cbn [do_all]. rewrite after_bind.
    rewrite IH by (apply leaf_do_add_representable; assumption).
    rewrite leaf_do_add_bits by assumption.
    split.
    + intros [[H|(g & Hg & Hb)]|(g & Hg & Hb)].
      * left. assumption.
      * right. exists g. split; [apply Exists_cons_hd|]; assumption.
      * right. exists g. split; [apply Exists_cons_tl|]; assumption.
    + intros [H|(g & Hg & Hb)].
      * left. left. assumption.
      * apply Exists_cons in Hg as [Hhd|Htl].
        -- left. right. exists g. split; assumption.
        -- right. exists g. split; assumption.
Qed.

Lemma combiner_after_adds (h tl : digest_t) (cs : list add_call)
    (d : hb_set_digest_combiner_t (state_of h) (state_of tl)) :
  after (do_all do_add cs) d
  = Build_hb_set_digest_combiner_t (after (do_all do_add cs) (head d))
                                   (after (do_all do_add cs) (tail d)).
Proof.
  revert d. induction cs as [|c cs IH]; intros d; cbn [do_all].
  - destruct d. reflexivity.
  - rewrite !after_bind, IH, combiner_after_add. reflexivity.
Qed.

(** Two sequences of calls that add the same codepoints leave the same
    state. *)
Lemma same_adds_same_state (t : digest_t) (cs cs' : list add_call)
    (d : state_of t) :
  valid t -> representable t d ->
  Forall well_formed cs -> Forall well_formed cs' ->
  (forall g, Exists (fun c => adds c g) cs <-> Exists (fun c => adds c g) cs') ->
  after (do_all do_add cs) d = after (do_all do_add cs') d.
Proof.
  intros Hv Hd Hwf Hwf' Hsame.
  induction t as [mb s|h IHh tl IHtl].
  - destruct Hv as (Hmb & Hs & _). cbn [representable] in Hd.
    apply leaf_ext. apply Z.bits_inj'. intros k Hk. apply eq_true_iff_eq.
    rewrite !leaf_calls_bits by assumption.
    split; (intros [H|(g & Hg & Hb)]; [left; assumption|right]);
      exists g; (split; [apply Hsame; assumption|assumption]).
  - combiner_case. destruct Hv as [Hvh Hvt]. destruct Hd as [Hdh Hdt].
    rewrite !combiner_after_adds.
    rewrite (IHh (head d)), (IHtl (tail d)) by assumption. reflexivity.
Qed.

Lemma do_all_one {D C} (step : C -> method D unit) (x : C) (d : D) :
  after (do_all step [x]) d = after (step x) d.
Proof. cbn [do_all]. rewrite after_bind. reflexivity. Qed.

Lemma do_all_two {D C} (step : C -> method D unit) (x y : C) (d : D) :
  after (do_all step [x; y]) d = after (step y) (after (step x) d).
Proof. cbn [do_all]. rewrite !after_bind. reflexivity. Qed.

Lemma after_do_add_range (t : digest_t) (a b : Z) (d : state_of t) :
  after (do_add (AddRange a b)) d = after (Digest.add_range a b) d.
Proof. cbn [do_add]. rewrite after_bind. reflexivity. Qed.

(** X1, the state is a function of the set added: in a digest type that
    compiles, two sequences of well-formed calls that add the same
    codepoints leave the same state, whatever calls they are made of and
    in whatever order, and so give the same [may_have] answers. *)
Theorem state_depends_on_added_set (t : digest_t) (cs cs' : list add_call)
    (d : state_of t) :
  valid t -> representable t d ->
  Forall well_formed cs -> Forall well_formed cs' ->
  (forall g, Exists (fun c => adds c g) cs <-> Exists (fun c => adds c g) cs') ->
  after (do_all do_add cs) d = after (do_all do_add cs') d
  /\ forall g, result (Digest.may_have g) (after (do_all do_add cs) d)
               = result (Digest.may_have g) (after (do_all do_add cs') d).
Proof.
  intros Hv Hd Hwf Hwf' Hsame.
  assert (E : after (do_all do_add cs) d = after (do_all do_add cs') d)
    by (apply same_adds_same_state; assumption).
  split; [assumption|]. intros g. rewrite E. reflexivity.
Qed.

Lemma state_depends_on_added_set_witness :
  let cs := [AddRange 10 12; Add 7] in
  let cs' := [Add 7; Add 12; AddRange 10 11; Add 10] in
  after (do_all do_add cs) empty32 = after (do_all do_add cs') empty32
  /\ forall g, result (Digest.may_have g) (after (do_all do_add cs) empty32)
               = result (Digest.may_have g) (after (do_all do_add cs') empty32).
Proof.
  apply (state_depends_on_added_set (bits_pattern uint32_t 0)).
  - vm_compute. intuition discriminate.
  - vm_compute. intuition discriminate.
  - repeat constructor; vm_compute; intuition discriminate.
  - repeat constructor; vm_compute; intuition discriminate.
  - intros g. rewrite !Exists_cons, !Exists_nil. simpl. lia.
Defined.

(** X2, order of the calls: in a digest type that compiles, a sequence
    of well-formed [add*] calls leaves the same state in any order. *)
Theorem calls_commute (t : digest_t) (cs cs' : list add_call) (d : state_of t) :
  valid t -> representable t d -> Forall well_formed cs ->
  Permutation cs cs' ->
  after (do_all do_add cs) d = after (do_all do_add cs') d.
Proof.
  intros Hv Hd Hwf Hperm.
  apply same_adds_same_state; try assumption.
  - apply (Permutation_Forall Hperm). assumption.
  - intros g. rewrite !Exists_exists.
    split; intros (c & Hin & Hc); exists c; (split; [|assumption]).
    + apply (Permutation_in _ Hperm). assumption.
    + apply (Permutation_in _ (Permutation_sym Hperm)). assumption.
Qed.

Lemma calls_commute_witness :
  after (do_all do_add [Add 1000; AddRange 3 90]) empty32
  = after (do_all do_add [AddRange 3 90; Add 1000]) empty32.
Proof.
  apply (calls_commute (bits_pattern uint32_t 0)).
  - vm_compute. intuition discriminate.
  - vm_compute. intuition discriminate.
  - repeat constructor; vm_compute; intuition discriminate.
  - apply perm_swap.
Defined.

(** X3, ranges compose: in a digest type that compiles, [add_range] on
    [a..b] followed by [add_range] on [b+1..c] leaves the state of one
    [add_range] on [a..c]. *)
Theorem add_range_split (t : digest_t) (a b c : Z) (d : state_of t) :
  valid t -> representable t d ->
  is_codepoint a -> is_codepoint c -> a <= b -> b < c ->
  after (Digest.add_range a b ;; Digest.add_range (b + 1) c) d
  = after (Digest.add_range a c) d.
Proof.
  intros Hv Hd Ha Hc Hab Hbc.
  rewrite after_bind, <- !after_do_add_range.
  rewrite <- (do_all_two (do_add (D := state_of t))).
  rewrite <- (do_all_one (do_add (D := state_of t)) (AddRange a c)).
  unfold is_codepoint in *.
  apply same_adds_same_state; try assumption.
  - repeat constructor; cbn [well_formed]; unfold is_codepoint; lia.
  - repeat constructor; cbn [well_formed]; unfold is_codepoint; lia.
  - intros g. rewrite !Exists_cons, !Exists_nil. cbn [adds]. lia.
Qed.

Lemma add_range_split_witness :
  after (Digest.add_range 5 30 ;; Digest.add_range (30 + 1) 44) empty32
  = after (Digest.add_range 5 44) empty32.
Proof.
  apply (add_range_split (bits_pattern uint32_t 0)).
  - vm_compute. intuition discriminate.
  - vm_compute. intuition discriminate.
  - vm_compute. intuition discriminate.
  - vm_compute. intuition discriminate.
  - lia.
  - lia.
Defined.

(** X4, a range of one codepoint: in a digest type that compiles,
    [add_range a a] leaves the state that [add a] leaves. *)
Theorem add_range_point (t : digest_t) (a : Z) (d : state_of t) :
  valid t -> representable t d -> is_codepoint a ->
  after (Digest.add_range a a) d = after (Digest.add a) d.
Proof.
  intros Hv Hd Ha.
  rewrite <- after_do_add_range.
  change (Digest.add a) with (do_add (D := state_of t) (Add a)).
  rewrite <- (do_all_one (do_add (D := state_of t)) (AddRange a a)).
  rewrite <- (do_all_one (do_add (D := state_of t)) (Add a)).
  apply same_adds_same_state; try assumption.
  - repeat constructor; cbn [well_formed]; unfold is_codepoint in *; lia.
  - repeat constructor; cbn [well_formed]; unfold is_codepoint in *; lia.
  - intros g. rewrite !Exists_cons, !Exists_nil. cbn [adds]. lia.
Qed.

Lemma add_range_point_witness :
  after (Digest.add_range 1000 1000)
        (Build_hb_set_digest_bits_pattern_t 5
         : hb_set_digest_bits_pattern_t uint64_t 3)
  = after (Digest.add 1000) (Build_hb_set_digest_bits_pattern_t 5).
Proof.
  apply (add_range_point (bits_pattern uint64_t 3)).
  - vm_compute. intuition discriminate.
  - vm_compute. intuition discriminate.
  - vm_compute. intuition discriminate.
Defined.

Lemma after_init_combiner (h tl : digest_t)
    (d : hb_set_digest_combiner_t (state_of h) (state_of tl)) :
  after Digest.init d
  = Build_hb_set_digest_combiner_t (after Digest.init (head d))
                                   (after Digest.init (tail d)).
Proof. apply (combiner_after_call Init d). Qed.

(** X5, the answers of a populated digest: in a digest type that
    compiles, after [init] and a sequence of well-formed [add*] calls,
    [may_have g] is true exactly when, in every filter of the digest,
    some added codepoint has the bucket of [g]; every positive answer
    for a codepoint not added is such a collision. *)
Theorem may_have_exact (t : digest_t) (calls : list add_call) (g : Z)
    (d0 : state_of t) :
  valid t -> Forall well_formed calls ->
  result (Digest.may_have g) (after (Digest.init ;; do_all do_add calls) d0)
  = true
  <-> hits t (fun c => Exists (fun k => adds k c) calls) g.
Proof.
  intros Hv Hwf. rewrite after_bind.
  induction t as [mb s|h IHh tl IHtl].
  - destruct Hv as (Hmb & Hs & _). cbn [hits].
    change (result (BitsPattern.may_have mb s g)
              (after (do_all do_add calls) (after (BitsPattern.init mb s) d0))
            = true <->
            exists c, Exists (fun k => adds k c) calls /\
                      bucket mb s c = bucket mb s g).
    pose proof (mask_bits_range mb Hmb) as HW.
    pose proof (bucket_range mb s g Hmb) as Hb.
    rewrite may_have_testbit by assumption.
    rewrite leaf_calls_bits; try assumption; try lia.
    + cbn. rewrite Z.bits_0. split; [|auto].
      intros [H|H]; [discriminate|assumption].
    + cbn. split; [lia|apply Z.pow_pos_nonneg; lia].
  - combiner_case. destruct Hv as [Hvh Hvt]. cbn [hits].
    rewrite may_have_combiner, andb_true_iff.
    rewrite after_init_combiner, combiner_after_adds. cbn [head tail].
    rewrite (IHh (head d0) Hvh), (IHtl (tail d0) Hvt). reflexivity.
Qed.

Lemma may_have_exact_witness :
  result (Digest.may_have 37)
         (after (Digest.init ;; do_all do_add [Add 5]) empty32) = true
  <-> hits (bits_pattern uint32_t 0)
           (fun c => Exists (fun k => adds k c) [Add 5]) 37.
Proof.
  apply (may_have_exact (bits_pattern uint32_t 0)).
  - vm_compute. intuition discriminate.
  - repeat constructor; vm_compute; intuition discriminate.
Defined.

(** X6, [init] forgets: [init] leaves the same state whatever the digest
    held, and in a digest type that compiles [may_have] then answers
    false for every codepoint. *)
Theorem init_forgets (t : digest_t) (d d' : state_of t) (g : Z) :
  valid t ->
  after Digest.init d = after Digest.init d'
  /\ result (Digest.may_have g) (after Digest.init d) = false.
Proof.
  intros Hv. induction t as [mb s|h IHh tl IHtl].
  - destruct Hv as (Hmb & _). split; [reflexivity|].
    change (result (BitsPattern.may_have mb s g)
              (after (BitsPattern.init mb s) d) = false).
    rewrite may_have_testbit by assumption. cbn. apply Z.bits_0.
  - combiner_case. destruct Hv as [Hvh Hvt].
    rewrite !after_init_combiner.
    destruct (IHh (head d) (head d') Hvh) as [Eh Fh].
    destruct (IHtl (tail d) (tail d') Hvt) as [Et Ft].
    split.
    + rewrite Eh, Et. reflexivity.
    + rewrite may_have_combiner. cbn [head tail]. rewrite Fh. reflexivity.
Qed.

Lemma init_forgets_witness :
  let d : hb_set_digest_bits_pattern_t uint32_t 9 :=
    Build_hb_set_digest_bits_pattern_t 0xFFFF in
  let d' : hb_set_digest_bits_pattern_t uint32_t 9 :=
    Build_hb_set_digest_bits_pattern_t 1 in
  after Digest.init d = after Digest.init d'
  /\ result (Digest.may_have 1000) (after Digest.init d) = false.
Proof.
  apply (init_forgets (bits_pattern uint32_t 9)).
  vm_compute. intuition discriminate.
Defined.

Lemma saturated_answers (mb s a b x : Z) (d : hb_set_digest_bits_pattern_t mb s) :
  mask_type mb -> saturates mb s a b = true ->
  result (BitsPattern.may_have mb s x)
         (after (BitsPattern.add_range mb s a b) d) = true.
Proof.
  intros Hmb Hsat.
  rewrite may_have_testbit, add_range_saturated by assumption.
  apply all_ones_bits; [assumption|]. apply bucket_range. assumption.
Qed.

Lemma flooded_leaf (mb s a b x : Z) (d : state_of (bits_pattern mb s)) :
  mask_type mb -> saturates mb s a b = true ->
  result (Digest.may_have x) (after (do_add (AddRange a b)) d) = true.
Proof.
  intros Hmb Hsat. rewrite after_do_add_range.
  apply saturated_answers; assumption.
Qed.

Lemma flooded_combiner (h tl : digest_t) (a b x : Z)
    (d : state_of (combiner h tl)) :
  (forall dh : state_of h,
      result (Digest.may_have x) (after (do_add (AddRange a b)) dh) = true) ->
  (forall dt : state_of tl,
      result (Digest.may_have x) (after (do_add (AddRange a b)) dt) = true) ->
  result (Digest.may_have x) (after (do_add (AddRange a b)) d) = true.
Proof.
  intros Hh Ht. combiner_case.
  rewrite combiner_after_add, may_have_combiner. cbn [head tail].
  rewrite Hh, Ht. reflexivity.
Qed.

(** X7, flooding of the production digest: an [add_range] on codepoints
    [a <= b] whose values shifted by 9 are 31 or more apart saturates
    the three filters of [hb_set_digest_t], and [may_have] then answers
    true for every codepoint. *)
Theorem production_flooded (d : hb_set_digest_t) (a b x : Z) :
  is_codepoint a -> is_codepoint b -> a <= b ->
  31 <= Z.shiftr b 9 - Z.shiftr a 9 ->
  result (Digest.may_have x) (after (Digest.add_range a b) d) = true.
Proof.
  intros Ha Hb Hab Hwide.
  assert (Hm : mask_type uint32_t) by (vm_compute; tauto).
  assert (Hsat : forall s, s = 0 \/ s = 4 \/ s = 9 ->
                           saturates uint32_t s a b = true).
  { intros s Hs. rewrite saturates_ordered by (assumption || lia).
    apply Z.leb_le. change (BitsPattern.mask_bits uint32_t - 1) with 31.
    rewrite !Z.shiftr_div_pow2 in * by lia.
    change (2 ^ 9) with 512 in Hwide.
    destruct Hs as [->|[->| ->]].
    - change (2 ^ 0) with 1. euclid.
    - change (2 ^ 4) with 16. euclid.
    - change (2 ^ 9) with 512. assumption. }
  replace (after (Digest.add_range a b) d)
    with (after (do_add (D := state_of production) (AddRange a b)) d)
    by apply (after_do_add_range production).
  apply (flooded_combiner (bits_pattern uint32_t 4)
           (combiner (bits_pattern uint32_t 0) (bits_pattern uint32_t 9))).
  - intros dh. apply flooded_leaf; [assumption|]. apply Hsat. tauto.
  - intros dt.
    apply (flooded_combiner (bits_pattern uint32_t 0) (bits_pattern uint32_t 9)).
    + intros dh. apply flooded_leaf; [assumption|]. apply Hsat. tauto.
    + intros dh. apply flooded_leaf; [assumption|]. apply Hsat. tauto.
Qed.

Lemma production_flooded_witness :
  result (Digest.may_have 123456)
         (after (Digest.add_range 100 20000)
                (Build_hb_set_digest_combiner_t
                   (Build_hb_set_digest_bits_pattern_t 0)
                   (Build_hb_set_digest_combiner_t
                      (Build_hb_set_digest_bits_pattern_t 0)
                      (Build_hb_set_digest_bits_pattern_t 0))
                 : hb_set_digest_t)) = true.
Proof.
  apply production_flooded.
  - vm_compute. intuition discriminate.
  - vm_compute. intuition discriminate.
  - lia.
  - vm_compute. discriminate.
Defined.

(** X8, the bits a filter looks at: in a bits-pattern filter that
    compiles the bucket of [g] is [(g / 2^shift) mod 2^num_bits], so
    that codepoints a multiple of [2^(shift + num_bits)] apart share
    their bucket, and [may_have] answers true for each of them once one
    was added. *)
Theorem bucket_period (mb s g k : Z) (d : hb_set_digest_bits_pattern_t mb s) :
  valid (bits_pattern mb s) ->
  bucket mb s g = (g / 2 ^ s) mod 2 ^ BitsPattern.num_bits mb
  /\ bucket mb s (g + k * 2 ^ (s + BitsPattern.num_bits mb)) = bucket mb s g
  /\ result (Digest.may_have (g + k * 2 ^ (s + BitsPattern.num_bits mb)))
            (after (Digest.add g) d) = true.
Proof.
  intros (Hmb & Hs & _).
  destruct (mask_bits_pow2 mb Hmb) as [HW Hn].
  assert (Hformula : forall x,
             bucket mb s x = (x / 2 ^ s) mod 2 ^ BitsPattern.num_bits mb).
  { intros x. rewrite bucket_mod, HW, Z.shiftr_div_pow2 by assumption.
    reflexivity. }
  assert (Hperiod : bucket mb s (g + k * 2 ^ (s + BitsPattern.num_bits mb))
                    = bucket mb s g).
  { rewrite !Hformula.
    assert (Hps : 0 < 2 ^ s) by (apply Z.pow_pos_nonneg; lia).
    assert (Hpn : 0 < 2 ^ BitsPattern.num_bits mb)
      by (apply Z.pow_pos_nonneg; lia).
    rewrite Z.pow_add_r by lia.
    replace (g + k * (2 ^ s * 2 ^ BitsPattern.num_bits mb))
      with (g + (k * 2 ^ BitsPattern.num_bits mb) * 2 ^ s) by ring.
    rewrite Z.div_add by lia.
    apply Z.mod_add. lia. }
  split; [apply Hformula|]. split; [assumption|].
  cbn [Digest.may_have Digest.add BitsPattern.digest].
  rewrite may_have_testbit, add_testbit, Hperiod, Z.eqb_refl by assumption.
  apply orb_true_r.
Qed.

Lemma bucket_period_witness :
  bucket uint32_t 4 1000 = (1000 / 2 ^ 4) mod 2 ^ BitsPattern.num_bits uint32_t
  /\ bucket uint32_t 4 (1000 + 3 * 2 ^ (4 + BitsPattern.num_bits uint32_t))
     = bucket uint32_t 4 1000
  /\ result (Digest.may_have
               (1000 + 3 * 2 ^ (4 + BitsPattern.num_bits uint32_t)))
            (after (Digest.add 1000)
                   (Build_hb_set_digest_bits_pattern_t 0
                    : hb_set_digest_bits_pattern_t uint32_t 4)) = true.
Proof.
  apply (bucket_period uint32_t 4 1000 3).
  vm_compute. intuition discriminate.
Defined.

(** X9, integer promotion in [add_range]: on a bits-pattern filter that
    compiles, when the range does not saturate, the mask stored is the
    truncation to [mask_t] of the old mask ORed with the run computed
    without wrap-around, as the run is for a [mask_t] narrower than
    [int]; and for such a [mask_t] the run fits an [int]. *)
Theorem add_range_int_promotion (mb s a b : Z)
    (d : hb_set_digest_bits_pattern_t mb s) :
  valid (bits_pattern mb s) -> representable (bits_pattern mb s) d ->
  saturates mb s a b = false ->
  let ma := BitsPattern.mask_for mb s a in
  let mk := BitsPattern.mask_for mb s b in
  mask (after (Digest.add_range a b) d)
  = wrap (BitsPattern.mask_bits mb)
         (Z.lor (mask d) (mk + (mk - ma) - Z.b2z (mk <? ma)))
  /\ (mb <= 2 -> - 2 ^ 31 <= mk + (mk - ma) - Z.b2z (mk <? ma) < 2 ^ 31).
Proof.
  intros (Hmb & Hs & _) Hd Hsat ma mk. cbn [representable] in Hd.
  pose proof (mask_bits_range mb Hmb) as HW.
  split.
  - cbn [Digest.add_range BitsPattern.digest].
    rewrite add_range_run by assumption.
    symmetry. apply add_range_promoted; [lia|assumption].
  - intros Hnarrow.
    pose proof (mask_for_range mb s Hmb a) as Ha.
    pose proof (mask_for_range mb s Hmb b) as Hb.
    fold ma in Ha. fold mk in Hb.
    assert (Hpow : 2 ^ BitsPattern.mask_bits mb <= 2 ^ 16).
    { apply Z.pow_le_mono_r; [lia|]. unfold BitsPattern.mask_bits. lia. }
    change (2 ^ 16) with 65536 in Hpow. change (2 ^ 31) with 2147483648.
    destruct (mk <? ma); cbn [Z.b2z]; lia.
Qed.

Lemma add_range_int_promotion_witness :
  let d : hb_set_digest_bits_pattern_t 2 3 :=
    Build_hb_set_digest_bits_pattern_t 0x8001 in
  let ma := BitsPattern.mask_for 2 3 100 in
  let mk := BitsPattern.mask_for 2 3 150 in
  mask (after (Digest.add_range 100 150) d)
  = wrap (BitsPattern.mask_bits 2)
         (Z.lor (mask d) (mk + (mk - ma) - Z.b2z (mk <? ma)))
  /\ (2 <= 2 -> - 2 ^ 31 <= mk + (mk - ma) - Z.b2z (mk <? ma) < 2 ^ 31).
Proof.
  apply (add_range_int_promotion 2 3 100 150).
  - vm_compute. intuition discriminate.
  - vm_compute. intuition discriminate.
  - reflexivity.
Defined.

Lemma combiner_after_add_list (h tl : digest_t) (gs : list Z)
    (d : hb_set_digest_combiner_t (state_of h) (state_of tl)) :
  after (do_all Digest.add gs) d
  = Build_hb_set_digest_combiner_t (after (do_all Digest.add gs) (head d))
                                   (after (do_all Digest.add gs) (tail d)).
Proof.
  revert d. induction gs as [|g gs IH]; intros d; cbn [do_all].
  - destruct d. reflexivity.
  - pose proof (combiner_after_add (Add g) d) as E. cbn [do_add] in E.
    rewrite !after_bind, IH, E. reflexivity.
Qed.

(** X10, what [add_array] reads: in every digest type [add_array] leaves
    the state of [add] called in turn on the [count] elements at
    [array], [array + stride], [array + 2 * stride] and so on; with a
    count of 0 it leaves the state as it is. *)
Theorem add_array_reads_elements (t : digest_t) (mem : memory) (array : Z)
    (count : nat) (stride : Z) (d : state_of t) :
  after (Digest.add_array mem array count stride) d
  = after (do_all Digest.add (array_elements mem array count stride)) d
  /\ after (Digest.add_array mem array 0 stride) d = d.
Proof.
  assert (E : forall n,
             after (Digest.add_array mem array n stride) d
             = after (do_all Digest.add (array_elements mem array n stride)) d).
  { intros n. induction t as [mb s|h IHh tl IHtl].
    - apply add_array_elements.
    - combiner_case. rewrite combiner_after_add_list.
      cbn [Digest.add_array Combiner.digest]. unfold Combiner.add_array.
      rewrite after_bind, after_on_head, after_on_tail. cbn [head tail].
      rewrite IHh, IHtl. reflexivity. }
  split; [apply E|]. rewrite E. reflexivity.
Qed.

(** X11, the vector query on a digest with narrow masks: in a digest
    type that compiles and whose masks have at most 32 bits, the vector
    [may_have] answers true for every batch one of whose eight lanes
    gets true from the scalar [may_have]. *)
Theorem may_have_m256_sound (t : digest_t) (d : state_of t) (v : m256i) :
  valid t -> narrow t -> representable t d ->
  existsb (fun g => result (Digest.may_have g) d) (lanes v) = true ->
  result (Digest.may_have_m256 v) d = true.
Proof.
  intros Hv Hn Hd Hlane.
  apply existsb_exists in Hlane as (g & Hin & Hg).
  induction t as [mb s|h IHh tl IHtl].
  - cbn [narrow state_of digest_of] in *.
    rewrite may_have_m256_narrow by assumption.
    apply existsb_exists. exists g. split; assumption.
  - combiner_case. cbn [narrow] in Hn.
    destruct Hv as [Hvh Hvt]. destruct Hn as [Hnh Hnt].
    destruct Hd as [Hdh Hdt].
    rewrite may_have_combiner in Hg. apply andb_true_iff in Hg as [Hgh Hgt].
    cbn [Digest.may_have_m256 Combiner.digest]. unfold Combiner.may_have_m256.
    rewrite result_bind, result_on_head, after_on_head.
    rewrite may_have_m256_leaves_state, (IHh (head d)) by assumption.
    rewrite result_on_tail. cbn [tail]. apply IHtl; assumption.
Qed.

Lemma may_have_m256_sound_witness :
  let d := after (Digest.init ;; Digest.add 1000)
                 (Build_hb_set_digest_combiner_t
                    (Build_hb_set_digest_bits_pattern_t 0)
                    (Build_hb_set_digest_combiner_t
                       (Build_hb_set_digest_bits_pattern_t 0)
                       (Build_hb_set_digest_bits_pattern_t 0))
                  : state_of production) in
  result (Digest.may_have_m256 (M256 1 2 3 4 1000 6 7 8)) d = true.
Proof.
  apply (may_have_m256_sound production).
  - vm_compute. intuition discriminate.
  - vm_compute. intuition discriminate.
  - vm_compute. intuition discriminate.
  - reflexivity.
Defined.

(** X16, vector and scalar queries on a narrow mask: on a bits-pattern
    filter that compiles and whose mask has at most 32 bits, the vector
    [may_have] answers true exactly when the scalar [may_have] answers
    true for one of the eight lanes of the batch. *)
Theorem vector_scalar_equivalence_narrow (mb s : Z)
    (d : hb_set_digest_bits_pattern_t mb s) (v : m256i) :
  valid (bits_pattern mb s) -> mb <= 4 ->
  representable (bits_pattern mb s) d ->
  result (Digest.may_have_m256 v) d = true
  <-> exists g, In g (lanes v) /\ result (Digest.may_have g) d = true.
Proof.
  intros Hv Hle Hd.
  rewrite may_have_m256_narrow by assumption.
  apply existsb_exists.
Qed.

Lemma vector_scalar_equivalence_narrow_witness :
  let d := after (Digest.add 37) empty32 in
  let v := M256 1 2 3 4 5 6 7 8 in
  result (Digest.may_have_m256 v) d = true
  <-> exists g, In g (lanes v) /\ result (Digest.may_have g) d = true.
Proof.
  apply (vector_scalar_equivalence_narrow uint32_t 0).
  - vm_compute. intuition discriminate.
  - vm_compute. discriminate.
  - vm_compute. intuition discriminate.
Defined.

(** * Tags *)

Lemma lor_disjoint (hi lo n : Z) :
  0 <= n -> 0 <= lo < 2 ^ n -> Z.lor (Z.shiftl hi n) lo = hi * 2 ^ n + lo.
Proof.
  intros Hn Hlo.
  assert (Hland : Z.land (Z.shiftl hi n) lo = 0).
  { apply Z.bits_inj'. intros k Hk.
    rewrite Z.land_spec, Z.bits_0.
    destruct (Z.lt_ge_cases k n) as [Hlt|Hge].
    - rewrite Z.shiftl_spec_low by assumption. reflexivity.
    - rewrite (high_bits_clear n lo k) by assumption. apply andb_false_r. }
  pose proof (Z.add_lor_land (Z.shiftl hi n) lo) as E.
  rewrite Hland, Z.shiftl_mul_pow2 in E by assumption.
  rewrite Z.shiftl_mul_pow2 by assumption. lia.
Qed.

Lemma byte_range (a : Z) : 0 <= wrap 8 a < 256.
Proof. apply (wrap_range 8 a). lia. Qed.

(** The value of a tag: its first character is the most significant
    byte. *)
Lemma HB_TAG_value (a b c d : Z) :
  HB_TAG a b c d
  = wrap 8 a * 2 ^ 24 + wrap 8 b * 2 ^ 16 + wrap 8 c * 2 ^ 8 + wrap 8 d.
Proof.
  unfold HB_TAG.
  pose proof (byte_range a) as Ha. pose proof (byte_range b) as Hb.
  pose proof (byte_range c) as Hc. pose proof (byte_range d) as Hd.
  rewrite <- !Z.lor_assoc.
  rewrite (lor_disjoint (wrap 8 c) (wrap 8 d) 8)
    by (change (2 ^ 8) with 256; lia).
  rewrite (lor_disjoint (wrap 8 b) _ 16)
    by (change (2 ^ 8) with 256; change (2 ^ 16) with 65536; lia).
  rewrite (lor_disjoint (wrap 8 a) _ 24)
    by (change (2 ^ 8) with 256; change (2 ^ 16) with 65536;
        change (2 ^ 24) with 16777216; lia).
  rewrite !Z.add_assoc.
  unfold wrap at 1. apply Z.mod_small.
  change (2 ^ 8) with 256. change (2 ^ 16) with 65536.
  change (2 ^ 24) with 16777216. change (2 ^ 32) with 4294967296. lia.
Qed.


(** X13, tags of strings: [HB_TAG_STR] gives two strings the same tag
    exactly when their first four characters are the same bytes. *)
Theorem HB_TAG_STR_injective (s s' : Z -> Z) :
  HB_TAG_STR s = HB_TAG_STR s'
  <-> wrap 8 (s 0) = wrap 8 (s' 0) /\ wrap 8 (s 1) = wrap 8 (s' 1)
      /\ wrap 8 (s 2) = wrap 8 (s' 2) /\ wrap 8 (s 3) = wrap 8 (s' 3).
Proof.
  unfold HB_TAG_STR. rewrite !HB_TAG_value.
  pose proof (byte_range (s 0)). pose proof (byte_range (s 1)).
  pose proof (byte_range (s 2)). pose proof (byte_range (s 3)).
  pose proof (byte_range (s' 0)). pose proof (byte_range (s' 1)).
  pose proof (byte_range (s' 2)). pose proof (byte_range (s' 3)).
  change (2 ^ 8) with 256. change (2 ^ 16) with 65536.
  change (2 ^ 24) with 16777216.
  split.
  - intros E. lia.
  - intros (-> & -> & -> & ->). reflexivity.
Qed.

Example HB_TAG_GDEF : HB_TAG 71 68 69 70 = 0x47444546.
Proof. reflexivity. Qed.

(** * Ranges in any order, and nesting of combiners *)

Lemma leaf_add_range_endpoints (mb s a b : Z)
    (d : hb_set_digest_bits_pattern_t mb s) :
  mask_type mb ->
  result (BitsPattern.may_have mb s a)
         (after (BitsPattern.add_range mb s a b) d) = true
  /\ result (BitsPattern.may_have mb s b)
            (after (BitsPattern.add_range mb s a b) d) = true.
Proof.
  intros Hmb.
  pose proof (bucket_range mb s a Hmb) as Ha.
  pose proof (bucket_range mb s b Hmb) as Hb.
  rewrite !may_have_testbit, !add_range_testbit by (assumption || lia).
  destruct (saturates mb s a b).
  - split; apply Z.ltb_lt; lia.
  - destruct (Z.ltb_spec (bucket mb s a) (BitsPattern.mask_bits mb)); [|lia].
    destruct (Z.ltb_spec (bucket mb s b) (BitsPattern.mask_bits mb)); [|lia].
    rewrite !Z.leb_refl.
    destruct (Z.leb_spec (bucket mb s a) (bucket mb s b)) as [Hle|Hgt];
      cbn [andb orb]; split; rewrite ?orb_true_r; reflexivity.
Qed.

(** X14, the ends of a range in any order: in a digest type that
    compiles, after [add_range a b] the answer of [may_have] is true for
    [a] and for [b], also when the range is inverted. *)
Theorem add_range_endpoints (t : digest_t) (a b : Z) (d : state_of t) :
  valid t ->
  result (Digest.may_have a) (after (Digest.add_range a b) d) = true
  /\ result (Digest.may_have b) (after (Digest.add_range a b) d) = true.
Proof.
  intros Hv. rewrite <- after_do_add_range.
  induction t as [mb s|h IHh tl IHtl].
  - destruct Hv as (Hmb & _). rewrite after_do_add_range.
    apply leaf_add_range_endpoints. assumption.
  - combiner_case. destruct Hv as [Hvh Hvt].
    rewrite combiner_after_add, !may_have_combiner. cbn [head tail].
    destruct (IHh (head d) Hvh) as [-> ->].
    destruct (IHtl (tail d) Hvt) as [-> ->].
    split; reflexivity.
Qed.

Lemma add_range_endpoints_witness :
  result (Digest.may_have 4294967295)
         (after (Digest.add_range 4294967295 0) empty32) = true
  /\ result (Digest.may_have 0)
            (after (Digest.add_range 4294967295 0) empty32) = true.
Proof.
  apply (add_range_endpoints (bits_pattern uint32_t 0)).
  vm_compute. intuition discriminate.
Defined.

(** X15, nesting of combiners: three digests fed the same [init] and
    [add*] calls give the same [may_have] answer whether the first is
    combined with the combination of the other two or the combination of
    the first two with the third; and a combiner answers as the one with
    its members exchanged. *)
Theorem combiner_nesting (t1 t2 t3 : digest_t) (calls : list call) (g : Z)
    (d1 : state_of t1) (d2 : state_of t2) (d3 : state_of t3) :
  result (Digest.may_have g)
         (after (do_all do_call calls)
                (Build_hb_set_digest_combiner_t d1
                   (Build_hb_set_digest_combiner_t d2 d3)))
  = result (Digest.may_have g)
           (after (do_all do_call calls)
                  (Build_hb_set_digest_combiner_t
                     (Build_hb_set_digest_combiner_t d1 d2) d3))
  /\ result (Digest.may_have g)
            (after (do_all do_call calls)
                   (Build_hb_set_digest_combiner_t d1 d2))
     = result (Digest.may_have g)
              (after (do_all do_call calls)
                     (Build_hb_set_digest_combiner_t d2 d1)).
Proof.
  split.
  - rewrite (combiner_after_calls calls
               (Build_hb_set_digest_combiner_t d1
                  (Build_hb_set_digest_combiner_t d2 d3))).
    rewrite (combiner_after_calls calls
               (Build_hb_set_digest_combiner_t
                  (Build_hb_set_digest_combiner_t d1 d2) d3)).
    cbn [head tail].
    rewrite (combiner_after_calls calls (Build_hb_set_digest_combiner_t d2 d3)).
    rewrite (combiner_after_calls calls (Build_hb_set_digest_combiner_t d1 d2)).
    cbn [head tail].
    rewrite (may_have_combiner t1 (combiner t2 t3)).
    rewrite (may_have_combiner (combiner t1 t2) t3).
    cbn [head tail].
    rewrite (may_have_combiner t2 t3), (may_have_combiner t1 t2).
    cbn [head tail]. apply andb_assoc.
  - rewrite (combiner_after_calls calls (Build_hb_set_digest_combiner_t d1 d2)).
    rewrite (combiner_after_calls calls (Build_hb_set_digest_combiner_t d2 d1)).
    rewrite (may_have_combiner t1 t2), (may_have_combiner t2 t1).
    cbn [head tail]. apply andb_comm.
Qed.
